(** * Feature tensors and CTR identities of catboost/cuda/data/feature.h

    A shallow embedding of [TBinarySplit], [TFeatureTensor] and [TCtr]
    (namespace NCatboostCuda) together with the facts about their
    canonical form, ordering, hashing and subset queries.

    Conventions.
    - [ui32] and [ui64] values are integers of [Z]; the only arithmetic the
      header performs is the [size_t] addition of two vector sizes, whose
      wrap-around is written out with [ui64_wrap].
    - A [TVector<T>] is a [list T]; [push_back] appends at the end.
    - A member function that mutates [*this] and returns it is a function
      from the tensor before the call to the tensor after the call. *)

From Stdlib Require Import ZArith List Bool Lia Sorted Permutation.
Import ListNotations.
Local Open Scope Z_scope.

Definition ui32 : Type := Z.
Definition ui64 : Type := Z.

Definition ui64_wrap (z : Z) : ui64 := z mod 2 ^ 64.

(** [size()] of a vector, as a [size_t]. *)
Definition vsize {T : Type} (v : list T) : ui64 := Z.of_nat (length v).

(** ** Comparison operators

    The two operators the header's templates ([Sort], [std::unique],
    [std::tie], vector comparison) expect of an element type. *)

Class Comparable (T : Type) : Type := {
  lt_op : T -> T -> bool;   (* operator< *)
  eq_op : T -> T -> bool    (* operator== *)
}.

(** The laws that make [operator<] a strict total order whose induced
    equivalence is [operator==], itself equality of values. *)
Class StrictTotal (T : Type) `{Comparable T} : Prop := {
  eq_op_iff : forall a b : T, eq_op a b = true <-> a = b;
  lt_op_irrefl : forall a : T, lt_op a a = false;
  lt_op_trans : forall a b c : T,
      lt_op a b = true -> lt_op b c = true -> lt_op a c = true;
  lt_op_connex : forall a b : T,
      lt_op a b = false -> lt_op b a = false -> a = b
}.

#[export] Instance Comparable_ui32 : Comparable ui32 := {
  lt_op := Z.ltb;
  eq_op := Z.eqb
}.

(** [enum class EBinSplitType { TakeBin, TakeGreater }]: the enumerators
    take the values 0 and 1, and the built-in comparisons of a scoped
    enumeration compare these values. *)
Inductive EBinSplitType : Type :=
| TakeBin
| TakeGreater.

Definition EBinSplitType_value (e : EBinSplitType) : Z :=
  match e with
  | TakeBin => 0
  | TakeGreater => 1
  end.

#[export] Instance Comparable_EBinSplitType : Comparable EBinSplitType := {
  lt_op a b := EBinSplitType_value a <? EBinSplitType_value b;
  eq_op a b := EBinSplitType_value a =? EBinSplitType_value b
}.

(** [std::tuple]'s comparisons, which [std::tie(...)] uses: equality of
    all components, and for [<] the head decides unless neither head is
    below the other, in which case the tails are compared.  A tuple of
    three is a head and a tuple of two. *)
#[export] Instance Comparable_tie {A B : Type}
  `{Comparable A} `{Comparable B} : Comparable (A * B) := {
  lt_op x y :=
    lt_op (fst x) (fst y)
    || (negb (lt_op (fst y) (fst x)) && lt_op (snd x) (snd y));
  eq_op x y := eq_op (fst x) (fst y) && eq_op (snd x) (snd y)
}.

(** [std::lexicographical_compare], the [operator<] of vectors. *)
Fixpoint lexicographical_compare {T : Type} `{Comparable T}
  (v w : list T) : bool :=
  match v, w with
  | x :: v', y :: w' =>
      if lt_op x y then true
      else if lt_op y x then false
      else lexicographical_compare v' w'
  | [], _ :: _ => true
  | _, [] => false
  end.

(** The [operator==] of vectors: same size and equal elements. *)
Fixpoint vector_eq {T : Type} `{Comparable T} (v w : list T) : bool :=
  match v, w with
  | [], [] => true
  | x :: v', y :: w' => eq_op x y && vector_eq v' w'
  | _, _ => false
  end.

#[export] Instance Comparable_vector {T : Type} `{Comparable T} :
  Comparable (list T) := {
  lt_op := lexicographical_compare;
  eq_op := vector_eq
}.

(** ** TBinarySplit *)

Record TBinarySplit : Type := mkTBinarySplit {
  FeatureId : ui32;
  BinIdx : ui32;
  SplitType : EBinSplitType
}.

(** [std::tie(FeatureId, BinIdx, SplitType)] *)
Definition TBinarySplit_tie (s : TBinarySplit) :
  ui32 * (ui32 * EBinSplitType) :=
  (FeatureId s, (BinIdx s, SplitType s)).

Definition TBinarySplit_lt (a b : TBinarySplit) : bool :=
  lt_op (TBinarySplit_tie a) (TBinarySplit_tie b).

Definition TBinarySplit_eq (a b : TBinarySplit) : bool :=
  eq_op (TBinarySplit_tie a) (TBinarySplit_tie b).

Definition TBinarySplit_ne (a b : TBinarySplit) : bool :=
  negb (TBinarySplit_eq a b).

#[export] Instance Comparable_TBinarySplit : Comparable TBinarySplit := {
  lt_op := TBinarySplit_lt;
  eq_op := TBinarySplit_eq
}.

(** ** Sort and Unique *)

Section SortUnique.
Context {T : Type} `{Comparable T}.

(** [Sort(begin, end)] arranges the vector in ascending order of
    [operator<].  The order is total and its equivalence is equality,
    so the arrangement does not depend on the sorting algorithm; it is
    computed here by insertion. *)
Fixpoint sort_insert (x : T) (v : list T) : list T :=
  match v with
  | [] => [x]
  | y :: v' => if lt_op y x then y :: sort_insert x v' else x :: y :: v'
  end.

Definition Sort (v : list T) : list T := fold_right sort_insert [] v.

(** [std::unique]: of every run of consecutive equal elements the first
    one is kept; [x] is the element kept last. *)
Fixpoint unique_from (x : T) (v : list T) : list T :=
  match v with
  | [] => [x]
  | y :: v' =>
      if eq_op x y then unique_from x v' else x :: unique_from y v'
  end.

(** [Unique(vector)]: [std::unique] followed by [resize] to the new
    logical end. *)
Definition Unique (v : list T) : list T :=
  match v with
  | [] => []
  | x :: v' => unique_from x v'
  end.

(** The loop [for (auto& x : xs) v.push_back(x);] *)
Definition push_back_all (v xs : list T) : list T :=
  fold_left (fun acc x => acc ++ [x]) xs v.

End SortUnique.

(** ** TFeatureTensor *)

Record TFeatureTensor : Type := mkTFeatureTensor {
  Splits : list TBinarySplit;
  CatFeatures : list ui32
}.

(** The default-constructed tensor: both vectors empty. *)
Definition TFeatureTensor_empty : TFeatureTensor :=
  {| Splits := []; CatFeatures := [] |}.

Definition SortUniqueSplits (t : TFeatureTensor) : TFeatureTensor :=
  {| Splits := Unique (Sort (Splits t)); CatFeatures := CatFeatures t |}.

Definition SortUniqueCatFeatures (t : TFeatureTensor) : TFeatureTensor :=
  {| Splits := Splits t; CatFeatures := Unique (Sort (CatFeatures t)) |}.

Definition IsSimple (t : TFeatureTensor) : bool :=
  ui64_wrap (vsize (Splits t) + vsize (CatFeatures t)) =? 1.

(** [AddBinarySplit(const TBinarySplit&)] *)
Definition AddBinarySplit (t : TFeatureTensor) (bin : TBinarySplit) :
  TFeatureTensor :=
  SortUniqueSplits
    {| Splits := Splits t ++ [bin]; CatFeatures := CatFeatures t |}.

(** [AddBinarySplit(const TVector<TBinarySplit>&)] *)
Definition AddBinarySplits (t : TFeatureTensor) (splits : list TBinarySplit) :
  TFeatureTensor :=
  SortUniqueSplits
    {| Splits := push_back_all (Splits t) splits;
       CatFeatures := CatFeatures t |}.

(** [AddCatFeature(const TVector<ui32>&)] *)
Definition AddCatFeatures (t : TFeatureTensor) (featureIds : list ui32) :
  TFeatureTensor :=
  SortUniqueCatFeatures
    {| Splits := Splits t;
       CatFeatures := push_back_all (CatFeatures t) featureIds |}.

(** [AddCatFeature(ui32)] *)
Definition AddCatFeature (t : TFeatureTensor) (featureId : ui32) :
  TFeatureTensor :=
  SortUniqueCatFeatures
    {| Splits := Splits t; CatFeatures := CatFeatures t ++ [featureId] |}.

(** [AddTensor(const TFeatureTensor&)], for an argument that is not the
    receiver itself. *)
Definition AddTensor (t tensor : TFeatureTensor) : TFeatureTensor :=
  SortUniqueCatFeatures
    (SortUniqueSplits
       {| Splits := push_back_all (Splits t) (Splits tensor);
          CatFeatures := push_back_all (CatFeatures t) (CatFeatures tensor) |}).

Definition TFeatureTensor_eq (t other : TFeatureTensor) : bool :=
  eq_op (Splits t) (Splits other)
  && eq_op (CatFeatures t) (CatFeatures other).

Definition TFeatureTensor_ne (t other : TFeatureTensor) : bool :=
  negb (TFeatureTensor_eq t other).

Definition IsEmpty (t : TFeatureTensor) : bool :=
  (vsize (CatFeatures t) =? 0) && (vsize (Splits t) =? 0).

Definition Size (t : TFeatureTensor) : ui64 :=
  ui64_wrap (vsize (CatFeatures t) + vsize (Splits t)).

(** [std::tie(Splits, CatFeatures) < std::tie(other.Splits, other.CatFeatures)] *)
Definition TFeatureTensor_lt (t other : TFeatureTensor) : bool :=
  lt_op (Splits t, CatFeatures t) (Splits other, CatFeatures other).

Definition GetComplexity (t : TFeatureTensor) : ui64 :=
  ui64_wrap (vsize (CatFeatures t) + Z.min (vsize (Splits t)) 1).

#[export] Instance Comparable_TFeatureTensor : Comparable TFeatureTensor := {
  lt_op := TFeatureTensor_lt;
  eq_op := TFeatureTensor_eq
}.

(** Modelled from the spec: the helper [NCatboostCuda::IsSubset] of
    helpers.h is absent.  Section 3 words it as: every element of the
    first sequence also appears in the second one. *)
Definition IsSubset_vector {T : Type} `{Comparable T}
  (v other : list T) : bool :=
  forallb (fun x => existsb (eq_op x) other) v.

Definition IsSubset (t other : TFeatureTensor) : bool :=
  IsSubset_vector (Splits t) (Splits other)
  && IsSubset_vector (CatFeatures t) (CatFeatures other).

(** ** Hashing

    The hashing primitives of util/digest and catboost/libs/model/hash.h
    are not part of this header and are parameters here.  [MultiHash]
    hashes each argument with [THash] and combines the results in
    argument order, so it is a function of the list of its arguments'
    [THash] values; [THash_ui32], [THash_ui64] and [THash_EBinSplitType]
    are [THash] at the built-in types, and the two vector hashes are left
    abstract. *)
Class HashPrimitives : Type := {
  MultiHash : list ui64 -> ui64;
  THash_ui32 : ui32 -> ui64;
  THash_ui64 : ui64 -> ui64;
  THash_EBinSplitType : EBinSplitType -> ui64;
  TVecHash : (TBinarySplit -> ui64) -> list TBinarySplit -> ui64;
  VecCityHash : list ui32 -> ui64
}.

Definition TBinarySplit_GetHash `{HashPrimitives} (s : TBinarySplit) : ui64 :=
  MultiHash [THash_ui32 (FeatureId s);
             THash_ui32 (BinIdx s);
             THash_EBinSplitType (SplitType s)].

(** [THash<TBinarySplit>] forwards to [GetHash]. *)
Definition THash_TBinarySplit `{HashPrimitives} (value : TBinarySplit) : ui64 :=
  TBinarySplit_GetHash value.

Definition TFeatureTensor_GetHash `{HashPrimitives} (t : TFeatureTensor) :
  ui64 :=
  MultiHash [THash_ui64 (TVecHash THash_TBinarySplit (Splits t));
             THash_ui64 (VecCityHash (CatFeatures t))].

Definition THash_TFeatureTensor `{HashPrimitives} (tensor : TFeatureTensor) :
  ui64 :=
  TFeatureTensor_GetHash tensor.

(** ** TCtr

    [TCtrConfig] (catboost/cuda/ctrs/ctr.h) is opaque here: a type with
    its own [operator<], [operator==] and [GetHash]. *)
Class CtrConfigOps (TCtrConfig : Type) : Type := {
  TCtrConfig_Comparable :: Comparable TCtrConfig;
  TCtrConfig_GetHash : TCtrConfig -> ui64
}.

Record TCtr (TCtrConfig : Type) : Type := mkTCtr {
  FeatureTensor : TFeatureTensor;
  Configuration : TCtrConfig
}.
Arguments mkTCtr {TCtrConfig} _ _.
Arguments FeatureTensor {TCtrConfig} _.
Arguments Configuration {TCtrConfig} _.

Section Ctr.
Context {TCtrConfig : Type} `{CtrConfigOps TCtrConfig}.

Definition TCtr_tie (c : TCtr TCtrConfig) : TFeatureTensor * TCtrConfig :=
  (FeatureTensor c, Configuration c).

Definition TCtr_eq (c other : TCtr TCtrConfig) : bool :=
  eq_op (TCtr_tie c) (TCtr_tie other).

Definition TCtr_ne (c other : TCtr TCtrConfig) : bool :=
  negb (TCtr_eq c other).

Definition TCtr_lt (c other : TCtr TCtrConfig) : bool :=
  lt_op (TCtr_tie c) (TCtr_tie other).

Definition TCtr_IsSimple (c : TCtr TCtrConfig) : bool :=
  IsSimple (FeatureTensor c).

(** [THash<TCtrConfig>] forwards to [config.GetHash()]. *)
Definition THash_TCtrConfig (config : TCtrConfig) : ui64 :=
  TCtrConfig_GetHash config.

Definition TCtr_GetHash `{HashPrimitives} (c : TCtr TCtrConfig) : ui64 :=
  MultiHash [THash_TFeatureTensor (FeatureTensor c);
             THash_TCtrConfig (Configuration c)].

End Ctr.

(** ** Specification vocabulary *)

(** A sequence is in ascending order when no element is followed, at any
    distance, by a smaller one. *)
Definition ascending {T : Type} `{Comparable T} (v : list T) : Prop :=
  StronglySorted (fun a b => lt_op b a = false) v.

(** The canonical form of one sequence: ascending, no duplicates. *)
Definition canonical_seq {T : Type} `{Comparable T} (v : list T) : Prop :=
  ascending v /\ NoDup v.

Definition canonical (t : TFeatureTensor) : Prop :=
  canonical_seq (Splits t) /\ canonical_seq (CatFeatures t).

(** Every element is strictly below all later ones. *)
Definition strictly_ascending {T : Type} `{Comparable T} (v : list T) : Prop :=
  StronglySorted (fun a b => lt_op a b = true) v.

(** Executable check of the canonical form: every element is strictly
    below its successor. *)
Fixpoint strictly_increasing {T : Type} `{Comparable T} (v : list T) : bool :=
  match v with
  | [] => true
  | x :: v' =>
      match v' with
      | [] => true
      | y :: _ => lt_op x y && strictly_increasing v'
      end
  end.

Definition canonicalb (t : TFeatureTensor) : bool :=
  strictly_increasing (Splits t) && strictly_increasing (CatFeatures t).

(** The mutating operations of the public interface. *)
Inductive Mutation : Type :=
| MAddBinarySplit (bin : TBinarySplit)
| MAddBinarySplits (splits : list TBinarySplit)
| MAddCatFeature (featureId : ui32)
| MAddCatFeatures (featureIds : list ui32)
| MAddTensor (tensor : TFeatureTensor).

Definition apply_mutation (t : TFeatureTensor) (m : Mutation) :
  TFeatureTensor :=
  match m with
  | MAddBinarySplit bin => AddBinarySplit t bin
  | MAddBinarySplits splits => AddBinarySplits t splits
  | MAddCatFeature featureId => AddCatFeature t featureId
  | MAddCatFeatures featureIds => AddCatFeatures t featureIds
  | MAddTensor tensor => AddTensor t tensor
  end.

(** Tensors obtained from the default-constructed one by the mutating
    operations; the argument of [AddTensor] is itself such a tensor. *)
Inductive reachable : TFeatureTensor -> Prop :=
| reachable_empty : reachable TFeatureTensor_empty
| reachable_AddBinarySplit t bin :
    reachable t -> reachable (AddBinarySplit t bin)
| reachable_AddBinarySplits t splits :
    reachable t -> reachable (AddBinarySplits t splits)
| reachable_AddCatFeature t featureId :
    reachable t -> reachable (AddCatFeature t featureId)
| reachable_AddCatFeatures t featureIds :
    reachable t -> reachable (AddCatFeatures t featureIds)
| reachable_AddTensor t tensor :
    reachable t -> reachable tensor -> reachable (AddTensor t tensor).

(** One element addition: a split or a categorical feature id. *)
Inductive Addition : Type :=
| AddSplit (bin : TBinarySplit)
| AddCat (featureId : ui32).

Definition apply_addition (t : TFeatureTensor) (a : Addition) :
  TFeatureTensor :=
  match a with
  | AddSplit bin => AddBinarySplit t bin
  | AddCat featureId => AddCatFeature t featureId
  end.

(** The calls of [adds], in order, on [t]. *)
Definition apply_additions (t : TFeatureTensor) (adds : list Addition) :
  TFeatureTensor :=
  fold_left apply_addition adds t.

(** Two collections of additions with the same elements. *)
Definition same_elements (adds adds' : list Addition) : Prop :=
  forall a, In a adds <-> In a adds'.

(** The two sizes of a tensor add up without leaving [ui64]. *)
Definition sizes_fit (t : TFeatureTensor) : Prop :=
  vsize (Splits t) + vsize (CatFeatures t) < 2 ^ 64.

(** The lexicographic order of vectors, as a relation. *)
Inductive lex_vector {T : Type} (R : T -> T -> Prop) :
  list T -> list T -> Prop :=
| lex_vector_nil y w : lex_vector R [] (y :: w)
| lex_vector_head x y v w : R x y -> lex_vector R (x :: v) (y :: w)
| lex_vector_tail x v w : lex_vector R v w -> lex_vector R (x :: v) (x :: w).

(** The lexicographic order over (FeatureId, BinIdx, SplitType). *)
Definition lex_TBinarySplit (a b : TBinarySplit) : Prop :=
  FeatureId a < FeatureId b
  \/ (FeatureId a = FeatureId b
      /\ (BinIdx a < BinIdx b
          \/ (BinIdx a = BinIdx b
              /\ EBinSplitType_value (SplitType a)
                 < EBinSplitType_value (SplitType b)))).

(** The lexicographic order over (Splits, CatFeatures). *)
Definition lex_TFeatureTensor (t u : TFeatureTensor) : Prop :=
  lex_vector lex_TBinarySplit (Splits t) (Splits u)
  \/ (Splits t = Splits u
      /\ lex_vector Z.lt (CatFeatures t) (CatFeatures u)).

(** The lexicographic order over (FeatureTensor, Configuration). *)
Definition lex_TCtr {TCtrConfig : Type} `{CtrConfigOps TCtrConfig}
  (c d : TCtr TCtrConfig) : Prop :=
  TFeatureTensor_lt (FeatureTensor c) (FeatureTensor d) = true
  \/ (TFeatureTensor_eq (FeatureTensor c) (FeatureTensor d) = true
      /\ lt_op (Configuration c) (Configuration d) = true).

(** The splits, and the categorical feature ids, of a collection of
    additions. *)
Definition added_splits (adds : list Addition) : list TBinarySplit :=
  flat_map (fun a => match a with AddSplit bin => [bin] | AddCat _ => [] end)
           adds.

Definition added_cats (adds : list Addition) : list ui32 :=
  flat_map (fun a => match a with AddSplit _ => [] | AddCat c => [c] end)
           adds.

(** A strict weak ordering [lt] consistent with the equality [eq]:
    irreflexive, asymmetric, transitive, with equality exactly the
    incomparability of the two values. *)
Definition strict_weak_order {T : Type} (lt eq : T -> T -> bool) : Prop :=
  (forall a, lt a a = false)
  /\ (forall a b, lt a b = true -> lt b a = false)
  /\ (forall a b c, lt a b = true -> lt b c = true -> lt a c = true)
  /\ (forall a b, eq a b = true <-> lt a b = false /\ lt b a = false)
  /\ (forall a b c,
        lt a b = false -> lt b a = false ->
        lt b c = false -> lt c b = false ->
        lt a c = false /\ lt c a = false).

(** Two-argument [MultiHash] keeps apart second arguments whose hashes
    differ, the hash of the first argument being the same. *)
Definition MultiHash_separates_second `{HashPrimitives} : Prop :=
  forall h x y : ui64, x <> y -> MultiHash [h; x] <> MultiHash [h; y].

(** The opaque configuration's [GetHash] agrees with its [operator==]. *)
Definition TCtrConfig_hash_consistent (TCtrConfig : Type)
  `{CtrConfigOps TCtrConfig} : Prop :=
  forall c d : TCtrConfig,
    eq_op c d = true -> TCtrConfig_GetHash c = TCtrConfig_GetHash d.

(** ** Sample instances of the absent parts, used to run the definitions *)

Definition sample_HashPrimitives : HashPrimitives := {|
  MultiHash := fold_right (fun h acc => h + 31 * acc) 0;
  THash_ui32 := fun x => x;
  THash_ui64 := fun x => x;
  THash_EBinSplitType := EBinSplitType_value;
  TVecHash := fun h v => fold_left (fun acc s => 31 * acc + h s) v 1;
  VecCityHash := fun v => fold_left (fun acc c => 31 * acc + c) v 7
|}.

(** A configuration that is a single number. *)
Definition sample_CtrConfigOps : CtrConfigOps Z := {|
  TCtrConfig_Comparable := Comparable_ui32;
  TCtrConfig_GetHash := fun c => c
|}.

Definition sample_split : TBinarySplit := mkTBinarySplit 1 2 TakeGreater.

Definition sample_tensor : TFeatureTensor :=
  AddCatFeature
    (AddBinarySplit (AddBinarySplit TFeatureTensor_empty sample_split)
                    sample_split)
    7.

(** Some element is immediately followed by an equal one. *)
Fixpoint adjacent_equal {T : Type} `{Comparable T} (v : list T) : bool :=
  match v with
  | [] => false
  | x :: v' =>
      match v' with
      | [] => false
      | y :: _ => eq_op x y || adjacent_equal v'
      end
  end.

(** The splits, and the categorical feature ids, that a mutating
    operation pushes back before it canonicalises. *)
Definition mutation_splits (m : Mutation) : list TBinarySplit :=
  match m with
  | MAddBinarySplit bin => [bin]
  | MAddBinarySplits splits => splits
  | MAddCatFeature _ | MAddCatFeatures _ => []
  | MAddTensor tensor => Splits tensor
  end.

Definition mutation_cats (m : Mutation) : list ui32 :=
  match m with
  | MAddBinarySplit _ | MAddBinarySplits _ => []
  | MAddCatFeature featureId => [featureId]
  | MAddCatFeatures featureIds => featureIds
  | MAddTensor tensor => CatFeatures tensor
  end.

(** * Properties *)

(** ** The comparison operators are strict total orders *)

#[export] Instance StrictTotal_ui32 : StrictTotal ui32.
Proof.
  split; cbn; intros.
  - apply Z.eqb_eq.
  - apply Z.ltb_irrefl.
  - apply Z.ltb_lt. apply Z.ltb_lt in H, H0. lia.
  - apply Z.ltb_ge in H, H0. lia.
Qed.

Lemma EBinSplitType_value_inj (a b : EBinSplitType) :
  EBinSplitType_value a = EBinSplitType_value b -> a = b.
Proof. destruct a, b; cbn; intros E; try reflexivity; discriminate E. Qed.

#[export] Instance StrictTotal_EBinSplitType : StrictTotal EBinSplitType.
Proof.
  split; cbn.
  - intros a b. rewrite Z.eqb_eq. split.
    + apply EBinSplitType_value_inj.
    + intros ->. reflexivity.
  - intros a. apply Z.ltb_irrefl.
  - intros a b c Hab Hbc. apply Z.ltb_lt.
    apply Z.ltb_lt in Hab, Hbc. lia.
  - intros a b Hab Hba. apply EBinSplitType_value_inj.
    apply Z.ltb_ge in Hab, Hba. lia.
Qed.

Section OrderFacts.
Context {T : Type} `{StrictTotal T}.

Lemma eq_op_refl (a : T) : eq_op a a = true.
Proof. apply eq_op_iff. reflexivity. Qed.

Lemma eq_op_false_iff (a b : T) : eq_op a b = false <-> a <> b.
Proof.
  rewrite <- (eq_op_iff a b). destruct (eq_op a b).
  - split; [discriminate | intros E; exfalso; apply E; reflexivity].
  - split; [intros _; discriminate | reflexivity].
Qed.

Lemma lt_op_asym (a b : T) : lt_op a b = true -> lt_op b a = false.
Proof.
  intros Hab. destruct (lt_op b a) eqn:Hba; [|reflexivity].
  pose proof (lt_op_trans a b a Hab Hba) as Haa.
  rewrite lt_op_irrefl in Haa. discriminate Haa.
Qed.

Lemma lt_op_neq (a b : T) : lt_op a b = true -> a <> b.
Proof.
  intros Hab ->. rewrite lt_op_irrefl in Hab. discriminate Hab.
Qed.

(** Exactly one of [a < b], [a = b], [b < a]. *)
Lemma lt_op_cases (a b : T) :
  (lt_op a b = true /\ lt_op b a = false /\ a <> b)
  \/ (lt_op a b = false /\ lt_op b a = false /\ a = b)
  \/ (lt_op a b = false /\ lt_op b a = true /\ a <> b).
Proof.
  destruct (lt_op a b) eqn:Hab.
  - left. repeat split. + now apply lt_op_asym. + now apply lt_op_neq.
  - destruct (lt_op b a) eqn:Hba.
    + right; right. repeat split.
      intros E. symmetry in E. now apply lt_op_neq in Hba.
    + right; left. repeat split. now apply lt_op_connex.
Qed.

(** [b] is not below [a], and [c] is not below [b]: [c] is not below [a]. *)
Lemma ge_op_trans (a b c : T) :
  lt_op b a = false -> lt_op c b = false -> lt_op c a = false.
Proof.
  intros Hba Hcb. destruct (lt_op c a) eqn:Hca; [|reflexivity].
  destruct (lt_op_cases a b) as [(Hab & _) | [(_ & _ & ->) | (_ & E & _)]].
  - rewrite (lt_op_trans c a b Hca Hab) in Hcb. discriminate Hcb.
  - rewrite Hca in Hcb. discriminate Hcb.
  - rewrite E in Hba. discriminate Hba.
Qed.

Lemma lt_ge_op_trans (a b c : T) :
  lt_op a b = true -> lt_op c b = false -> lt_op a c = true.
Proof.
  intros Hab Hcb.
  destruct (lt_op_cases b c) as [(Hbc & _) | [(_ & _ & <-) | (_ & E & _)]].
  - now apply lt_op_trans with b.
  - exact Hab.
  - rewrite E in Hcb. discriminate Hcb.
Qed.

End OrderFacts.

#[export] Instance StrictTotal_tie {A B : Type}
  `{StrictTotal A} `{StrictTotal B} : StrictTotal (A * B).
Proof.
  split.
  - intros [a b] [a' b']. cbn. rewrite andb_true_iff, !eq_op_iff.
    split; [intros [-> ->]; reflexivity | intros E; inversion E; auto].
  - intros [a b]. cbn. now rewrite !lt_op_irrefl.
  - intros [a1 b1] [a2 b2] [a3 b3]. cbn.
    rewrite !orb_true_iff, !andb_true_iff, !negb_true_iff.
    intros [H12 | [H21 H12]] [H23 | [H32 H23]].
    + left. now apply lt_op_trans with a2.
    + left. now apply lt_ge_op_trans with a2.
    + destruct (lt_op_cases a1 a2) as [(E & _) | [(_ & _ & ->) | (_ & E & _)]].
      * left. now apply lt_op_trans with a2.
      * now left.
      * rewrite E in H21. discriminate H21.
    + destruct (lt_op a1 a3) eqn:H13; [now left|right]. split.
      * now apply ge_op_trans with a2.
      * now apply lt_op_trans with b2.
  - intros [a b] [a' b']. cbn.
    rewrite !orb_false_iff, !andb_false_iff, !negb_false_iff.
    intros [Ha [Ha' | Hb]] [Ha2 [Ha2' | Hb']]; try congruence.
    f_equal; now apply lt_op_connex.
Qed.

Lemma vector_eq_iff {T : Type} `{StrictTotal T} (v w : list T) :
  vector_eq v w = true <-> v = w.
Proof.
  revert w. induction v as [|x v IH]; intros [|y w]; cbn;
    try (split; [discriminate | discriminate]); try tauto.
  rewrite andb_true_iff, eq_op_iff, IH.
  split; [intros [-> ->]; reflexivity | intros E; inversion E; auto].
Qed.

#[export] Instance StrictTotal_vector {T : Type} `{StrictTotal T} :
  StrictTotal (list T).
Proof.
  split.
  - apply vector_eq_iff.
  - intros v. cbn. induction v as [|x v IH]; cbn; [reflexivity|].
    now rewrite lt_op_irrefl.
  - cbn. intros u. induction u as [|x u IH]; intros [|y v] [|z w]; cbn;
      try discriminate; try reflexivity.
    destruct (lt_op_cases x y) as [(E1 & E2 & _) | [(E1 & E2 & ->) | (E1 & E2 & _)]];
      rewrite E1, ?E2; try discriminate.
    + intros _.
      destruct (lt_op_cases y z) as [(F1 & F2 & _) | [(F1 & F2 & <-) | (F1 & F2 & _)]];
        rewrite F1, ?F2; try discriminate; intros _.
      * now rewrite (lt_op_trans x y z E1 F1).
      * now rewrite E1.
    + destruct (lt_op y z) eqn:F1; [reflexivity|].
      destruct (lt_op z y) eqn:F2; [discriminate|]. apply IH.
  - cbn. intros v. induction v as [|x v IH]; intros [|y w]; cbn;
      try discriminate; try reflexivity.
    destruct (lt_op_cases x y) as [(E1 & E2 & _) | [(E1 & E2 & ->) | (E1 & E2 & _)]];
      rewrite ?E1, ?E2, ?E1; try discriminate.
    intros Hv Hw. f_equal. now apply IH.
Qed.

Lemma TBinarySplit_tie_inj (a b : TBinarySplit) :
  TBinarySplit_tie a = TBinarySplit_tie b -> a = b.
Proof.
  destruct a, b. unfold TBinarySplit_tie. cbn. intros E.
  inversion E. reflexivity.
Qed.

#[export] Instance StrictTotal_TBinarySplit : StrictTotal TBinarySplit.
Proof.
  split; unfold lt_op, eq_op, Comparable_TBinarySplit,
    TBinarySplit_lt, TBinarySplit_eq.
  - intros a b. rewrite eq_op_iff. split.
    + apply TBinarySplit_tie_inj.
    + intros ->. reflexivity.
  - intros a. apply lt_op_irrefl.
  - intros a b c. apply lt_op_trans.
  - intros a b Hab Hba. apply TBinarySplit_tie_inj. now apply lt_op_connex.
Qed.

Lemma TFeatureTensor_pair_inj (t u : TFeatureTensor) :
  (Splits t, CatFeatures t) = (Splits u, CatFeatures u) -> t = u.
Proof. destruct t, u. cbn. intros E. inversion E. reflexivity. Qed.

#[export] Instance StrictTotal_TFeatureTensor : StrictTotal TFeatureTensor.
Proof.
  split; unfold lt_op, eq_op, Comparable_TFeatureTensor, TFeatureTensor_lt.
  - intros t u. unfold TFeatureTensor_eq.
    change (eq_op (Splits t, CatFeatures t) (Splits u, CatFeatures u) = true
            <-> t = u).
    rewrite eq_op_iff. split.
    + apply TFeatureTensor_pair_inj.
    + intros ->. reflexivity.
  - intros t. apply lt_op_irrefl.
  - intros a b c. apply lt_op_trans.
  - intros a b Hab Hba. apply TFeatureTensor_pair_inj. now apply lt_op_connex.
Qed.

(** ** Sort and Unique compute the canonical form *)

Section SortUniqueFacts.
Context {T : Type} `{StrictTotal T}.

Lemma push_back_all_app (v xs : list T) : push_back_all v xs = v ++ xs.
Proof.
  unfold push_back_all. revert v.
  induction xs as [|x xs IH]; intros v; cbn.
  - now rewrite app_nil_r.
  - rewrite IH, <- app_assoc. reflexivity.
Qed.

Lemma sort_insert_perm (x : T) (v : list T) :
  Permutation (sort_insert x v) (x :: v).
Proof.
  induction v as [|y v IH]; cbn; [reflexivity|].
  destruct (lt_op y x); [|reflexivity].
  rewrite IH. apply perm_swap.
Qed.

Lemma Sort_perm (v : list T) : Permutation (Sort v) v.
Proof.
  induction v as [|x v IH]; cbn; [reflexivity|].
  rewrite sort_insert_perm. now constructor.
Qed.

Lemma Sort_In (v : list T) (z : T) : In z (Sort v) <-> In z v.
Proof.
  split; apply Permutation_in;
    [apply Sort_perm | apply Permutation_sym, Sort_perm].
Qed.

Lemma sort_insert_ascending (x : T) (v : list T) :
  ascending v -> ascending (sort_insert x v).
Proof.
  unfold ascending. induction 1 as [|y v Hv IH Hy]; cbn.
  - repeat constructor.
  - destruct (lt_op y x) eqn:Hyx.
    + constructor; [exact IH|].
      rewrite Forall_forall in *. intros z Hz.
      apply (Permutation_in _ (sort_insert_perm x v)) in Hz.
      destruct Hz as [<- | Hz]; [now apply lt_op_asym | now apply Hy].
    + constructor; [now constructor|].
      constructor; [exact Hyx|].
      rewrite Forall_forall in *. intros z Hz.
      apply ge_op_trans with y; [exact Hyx | now apply Hy].
Qed.

Lemma Sort_ascending (v : list T) : ascending (Sort v).
Proof.
  induction v as [|x v IH]; cbn.
  - constructor.
  - now apply sort_insert_ascending.
Qed.

(** Any ascending arrangement of the elements of [v] is [Sort v]: the
    result of sorting does not depend on the algorithm. *)
Lemma Sort_unique_arrangement (v w : list T) :
  Permutation w v -> ascending w -> w = Sort v.
Proof.
  intros Hp Hw.
  assert (Hp' : Permutation w (Sort v)).
  { apply Permutation_trans with v; [exact Hp|].
    apply Permutation_sym, Sort_perm. }
  pose proof (Sort_ascending v) as Hs.
  revert Hw Hs Hp'. generalize (Sort v) as s. clear Hp v.
  unfold ascending. induction w as [|a w IH]; intros s Hw Hs Hp.
  - apply Permutation_nil in Hp. now subst s.
  - destruct s as [|b s].
    + apply Permutation_sym, Permutation_nil in Hp. discriminate Hp.
    + inversion Hw as [|? ? Hw' Ha]; subst.
      inversion Hs as [|? ? Hs' Hb]; subst.
      rewrite Forall_forall in Ha, Hb.
      assert (Eab : a = b).
      { assert (Hab : lt_op a b = false).
        { destruct (Permutation_in a Hp (or_introl eq_refl)) as [<- | Hin];
            [apply lt_op_irrefl | now apply Hb]. }
        assert (Hba : lt_op b a = false).
        { destruct (Permutation_in b (Permutation_sym Hp) (or_introl eq_refl))
            as [<- | Hin]; [apply lt_op_irrefl | now apply Ha]. }
        now apply lt_op_connex. }
      subst b. f_equal. apply IH; try assumption.
      now apply Permutation_cons_inv with a.
Qed.

Lemma unique_from_In (x : T) (v : list T) (z : T) :
  In z (unique_from x v) <-> z = x \/ In z v.
Proof.
  revert x. induction v as [|y v IH]; intros x; cbn.
  - intuition.
  - destruct (eq_op x y) eqn:E.
    + apply eq_op_iff in E. subst y. rewrite IH. intuition.
    + cbn. rewrite IH. intuition.
Qed.

Lemma Unique_In (v : list T) (z : T) : In z (Unique v) <-> In z v.
Proof.
  destruct v as [|x v]; cbn; [tauto|].
  rewrite unique_from_In. intuition.
Qed.

Lemma unique_from_strictly_ascending (x : T) (v : list T) :
  ascending (x :: v) -> strictly_ascending (unique_from x v).
Proof.
  unfold ascending, strictly_ascending. revert x.
  induction v as [|y v IH]; intros x Hxv; cbn.
  - repeat constructor.
  - inversion Hxv as [|? ? Hyv Hx]; subst.
    inversion Hx as [|? ? Hyx Hxv']; subst.
    destruct (eq_op x y) eqn:E.
    + apply IH. inversion Hyv; subst. now constructor.
    + constructor; [now apply IH|].
      apply eq_op_false_iff in E.
      assert (Hlt : lt_op x y = true).
      { destruct (lt_op x y) eqn:Hxy; [reflexivity|].
        exfalso. apply E. now apply lt_op_connex. }
      rewrite Forall_forall. intros z Hz.
      apply unique_from_In in Hz. destruct Hz as [-> | Hz]; [exact Hlt|].
      inversion Hyv as [|? ? _ Hy]; subst.
      rewrite Forall_forall in Hy.
      apply lt_ge_op_trans with y; [exact Hlt | now apply Hy].
Qed.

Lemma Unique_strictly_ascending (v : list T) :
  ascending v -> strictly_ascending (Unique v).
Proof.
  destruct v as [|x v]; cbn.
  - intros _. constructor.
  - apply unique_from_strictly_ascending.
Qed.

Lemma SortUnique_strictly_ascending (v : list T) :
  strictly_ascending (Unique (Sort v)).
Proof. apply Unique_strictly_ascending, Sort_ascending. Qed.

Lemma SortUnique_In (v : list T) (z : T) :
  In z (Unique (Sort v)) <-> In z v.
Proof. now rewrite Unique_In, Sort_In. Qed.

(** A strictly ascending sequence is determined by its elements. *)
Lemma strictly_ascending_ext (v w : list T) :
  strictly_ascending v -> strictly_ascending w ->
  (forall z, In z v <-> In z w) -> v = w.
Proof.
  unfold strictly_ascending. intros Hv. revert w.
  induction Hv as [|x v Hv IH Hx]; intros w Hw Hvw.
  - destruct w as [|y w]; [reflexivity|].
    exfalso. apply (Hvw y). now left.
  - destruct Hw as [|y w Hw Hy].
    + exfalso. apply (Hvw x). now left.
    + rewrite Forall_forall in Hx, Hy.
      assert (Exy : x = y).
      { destruct (proj1 (Hvw x) (or_introl eq_refl)) as [E | Hin];
          [now symmetry|].
        destruct (proj2 (Hvw y) (or_introl eq_refl)) as [E | Hin'];
          [exact E|].
        pose proof (lt_op_asym _ _ (Hx _ Hin')) as Hno.
        rewrite (Hy _ Hin) in Hno. discriminate Hno. }
      subst y. f_equal. apply IH; [exact Hw|].
      intros z. split; intros Hz.
      * destruct (proj1 (Hvw z) (or_intror Hz)) as [E | Hin]; [|exact Hin].
        subst z. pose proof (Hx _ Hz) as Hxx.
        rewrite lt_op_irrefl in Hxx. discriminate Hxx.
      * destruct (proj2 (Hvw z) (or_intror Hz)) as [E | Hin]; [|exact Hin].
        subst z. pose proof (Hy _ Hz) as Hxx.
        rewrite lt_op_irrefl in Hxx. discriminate Hxx.
Qed.

(** The canonical form depends on the elements only. *)
Lemma SortUnique_ext (v w : list T) :
  (forall z, In z v <-> In z w) ->
  Unique (Sort v) = Unique (Sort w).
Proof.
  intros Hvw. apply strictly_ascending_ext;
    try apply SortUnique_strictly_ascending.
  intros z. now rewrite !SortUnique_In.
Qed.

(** A canonical sequence is left as it is. *)
Lemma SortUnique_fixed (v : list T) :
  strictly_ascending v -> Unique (Sort v) = v.
Proof.
  intros Hv. apply strictly_ascending_ext;
    [apply SortUnique_strictly_ascending | exact Hv |].
  intros z. apply SortUnique_In.
Qed.

Lemma SortUnique_idempotent (v : list T) :
  Unique (Sort (Unique (Sort v))) = Unique (Sort v).
Proof. apply SortUnique_fixed, SortUnique_strictly_ascending. Qed.

Lemma strictly_ascending_canonical_seq (v : list T) :
  strictly_ascending v <-> canonical_seq v.
Proof.
  unfold strictly_ascending, canonical_seq, ascending. split.
  - induction 1 as [|x v Hv [IHa IHn] Hx]; [split; constructor|].
    rewrite Forall_forall in Hx. split.
    + constructor; [exact IHa|]. rewrite Forall_forall.
      intros z Hz. now apply lt_op_asym, Hx.
    + constructor; [|exact IHn]. intros Hin.
      pose proof (Hx _ Hin) as Hxx.
      rewrite lt_op_irrefl in Hxx. discriminate Hxx.
  - intros [Ha Hn]. induction Ha as [|x v Hv IH Hx]; [constructor|].
    inversion Hn as [|? ? Hnin Hn']; subst.
    constructor; [now apply IH|].
    rewrite Forall_forall in *. intros z Hz.
    destruct (lt_op x z) eqn:Hxz; [reflexivity|].
    exfalso. apply Hnin.
    rewrite (lt_op_connex x z Hxz (Hx _ Hz)). exact Hz.
Qed.

Lemma strictly_increasing_iff (v : list T) :
  strictly_increasing v = true <-> strictly_ascending v.
Proof.
  unfold strictly_ascending. induction v as [|x v IH].
  - split; [constructor | reflexivity].
  - destruct v as [|y v].
    + split; [repeat constructor | reflexivity].
    + change (strictly_increasing (x :: y :: v))
        with (lt_op x y && strictly_increasing (y :: v)).
      rewrite andb_true_iff, IH. split.
      * intros [Hxy Hyv]. constructor; [exact Hyv|].
        constructor; [exact Hxy|].
        inversion Hyv as [|? ? _ Hy]; subst.
        rewrite Forall_forall in *. intros z Hz.
        now apply lt_op_trans with y; [|apply Hy].
      * intros Hs. inversion Hs as [|? ? Hyv Hx]; subst.
        inversion Hx; subst. now split.
Qed.

Lemma canonical_seq_SortUnique (v : list T) :
  canonical_seq (Unique (Sort v)).
Proof.
  apply strictly_ascending_canonical_seq, SortUnique_strictly_ascending.
Qed.

(** Canonicalising a duplicate-free sequence together with further
    elements never makes it shorter. *)
Lemma SortUnique_length_le (v w : list T) :
  NoDup v -> (forall z, In z v -> In z w) ->
  (length v <= length (Unique (Sort w)))%nat.
Proof.
  intros Hn Hvw. apply NoDup_incl_length; [exact Hn|].
  intros z Hz. apply SortUnique_In. now apply Hvw.
Qed.

End SortUniqueFacts.

(** ** The mutating operations in terms of the canonical form *)

Lemma TFeatureTensor_eq_iff (t u : TFeatureTensor) :
  TFeatureTensor_eq t u = true <-> t = u.
Proof. exact (eq_op_iff t u). Qed.

Lemma tensor_ext (t u : TFeatureTensor) :
  Splits t = Splits u -> CatFeatures t = CatFeatures u -> t = u.
Proof. destruct t, u. cbn. intros -> ->. reflexivity. Qed.

Lemma apply_mutation_Splits (t : TFeatureTensor) (m : Mutation) :
  Splits (apply_mutation t m) =
  match m with
  | MAddBinarySplit bin => Unique (Sort (Splits t ++ [bin]))
  | MAddBinarySplits splits => Unique (Sort (Splits t ++ splits))
  | MAddCatFeature _ | MAddCatFeatures _ => Splits t
  | MAddTensor tensor => Unique (Sort (Splits t ++ Splits tensor))
  end.
Proof. destruct m; cbn; rewrite ?push_back_all_app; reflexivity. Qed.

Lemma apply_mutation_CatFeatures (t : TFeatureTensor) (m : Mutation) :
  CatFeatures (apply_mutation t m) =
  match m with
  | MAddBinarySplit _ | MAddBinarySplits _ => CatFeatures t
  | MAddCatFeature featureId => Unique (Sort (CatFeatures t ++ [featureId]))
  | MAddCatFeatures featureIds => Unique (Sort (CatFeatures t ++ featureIds))
  | MAddTensor tensor => Unique (Sort (CatFeatures t ++ CatFeatures tensor))
  end.
Proof. destruct m; cbn; rewrite ?push_back_all_app; reflexivity. Qed.

Lemma apply_mutation_canonical (t : TFeatureTensor) (m : Mutation) :
  canonical t -> canonical (apply_mutation t m).
Proof.
  intros [Hs Hc]. unfold canonical.
  rewrite apply_mutation_Splits, apply_mutation_CatFeatures.
  destruct m; split; try assumption; apply canonical_seq_SortUnique.
Qed.

Lemma canonical_empty : canonical TFeatureTensor_empty.
Proof. repeat split; constructor. Qed.

Lemma reachable_canonical (t : TFeatureTensor) : reachable t -> canonical t.
Proof.
  induction 1 as [| t bin _ IH | t splits _ IH | t c _ IH | t cs _ IH
                  | t u _ IH _ _].
  - apply canonical_empty.
  - exact (apply_mutation_canonical t (MAddBinarySplit bin) IH).
  - exact (apply_mutation_canonical t (MAddBinarySplits splits) IH).
  - exact (apply_mutation_canonical t (MAddCatFeature c) IH).
  - exact (apply_mutation_canonical t (MAddCatFeatures cs) IH).
  - exact (apply_mutation_canonical t (MAddTensor u) IH).
Qed.

Lemma canonicalb_iff (t : TFeatureTensor) :
  canonicalb t = true <-> canonical t.
Proof.
  unfold canonicalb, canonical.
  rewrite andb_true_iff, !strictly_increasing_iff,
    !strictly_ascending_canonical_seq.
  reflexivity.
Qed.

Lemma canonical_fixed (t : TFeatureTensor) :
  canonical t ->
  Unique (Sort (Splits t)) = Splits t
  /\ Unique (Sort (CatFeatures t)) = CatFeatures t.
Proof.
  intros [Hs Hc].
  split; apply SortUnique_fixed, strictly_ascending_canonical_seq; assumption.
Qed.

Lemma apply_mutation_keeps_split (t : TFeatureTensor) (m : Mutation)
  (s : TBinarySplit) :
  In s (Splits t) -> In s (Splits (apply_mutation t m)).
Proof.
  intros Hs. rewrite apply_mutation_Splits.
  destruct m; try exact Hs; apply SortUnique_In, in_or_app; now left.
Qed.

Lemma apply_mutation_keeps_cat (t : TFeatureTensor) (m : Mutation)
  (c : ui32) :
  In c (CatFeatures t) -> In c (CatFeatures (apply_mutation t m)).
Proof.
  intros Hc. rewrite apply_mutation_CatFeatures.
  destruct m; try exact Hc; apply SortUnique_In, in_or_app; now left.
Qed.

Lemma apply_mutation_length (t : TFeatureTensor) (m : Mutation) :
  canonical t ->
  (length (Splits t) <= length (Splits (apply_mutation t m)))%nat
  /\ (length (CatFeatures t)
      <= length (CatFeatures (apply_mutation t m)))%nat.
Proof.
  intros [[_ Hs] [_ Hc]].
  split; apply NoDup_incl_length; try assumption; intros z Hz.
  - now apply apply_mutation_keeps_split.
  - now apply apply_mutation_keeps_cat.
Qed.

Lemma ui64_wrap_small (z : Z) : 0 <= z < 2 ^ 64 -> ui64_wrap z = z.
Proof. intros Hz. unfold ui64_wrap. now apply Z.mod_small. Qed.

Lemma vsize_nonneg {T : Type} (v : list T) : 0 <= vsize v.
Proof. unfold vsize. lia. Qed.

Lemma Size_fit (t : TFeatureTensor) :
  sizes_fit t -> Size t = vsize (CatFeatures t) + vsize (Splits t).
Proof.
  unfold sizes_fit, Size. intros Hfit. apply ui64_wrap_small.
  pose proof (vsize_nonneg (Splits t)).
  pose proof (vsize_nonneg (CatFeatures t)). lia.
Qed.

(** ** Sequences of element additions *)

Lemma In_added_splits (adds : list Addition) (s : TBinarySplit) :
  In s (added_splits adds) <-> In (AddSplit s) adds.
Proof.
  unfold added_splits. rewrite in_flat_map. split.
  - intros [[bin | c] [Hin Hs]]; cbn in Hs; [|contradiction].
    destruct Hs as [<- | []]. exact Hin.
  - intros Hin. exists (AddSplit s). split; [exact Hin | now left].
Qed.

Lemma In_added_cats (adds : list Addition) (c : ui32) :
  In c (added_cats adds) <-> In (AddCat c) adds.
Proof.
  unfold added_cats. rewrite in_flat_map. split.
  - intros [[bin | c'] [Hin Hc]]; cbn in Hc; [contradiction|].
    destruct Hc as [<- | []]. exact Hin.
  - intros Hin. exists (AddCat c). split; [exact Hin | now left].
Qed.

(** The result of a sequence of additions: a sequence that receives no
    element is not touched, one that receives some is the canonical form
    of the old elements together with the new ones. *)
Lemma apply_additions_Splits (adds : list Addition) (t : TFeatureTensor) :
  Splits (apply_additions t adds) =
  match added_splits adds with
  | [] => Splits t
  | _ :: _ => Unique (Sort (Splits t ++ added_splits adds))
  end.
Proof.
  unfold apply_additions. revert t.
  induction adds as [|[bin | c] adds IH]; intros t; cbn [fold_left].
  - reflexivity.
  - rewrite IH. change (added_splits (AddSplit bin :: adds))
      with (bin :: added_splits adds).
    change (Splits (apply_addition t (AddSplit bin)))
      with (Unique (Sort (Splits t ++ [bin]))).
    destruct (added_splits adds) as [|s ss] eqn:E; [reflexivity|].
    apply SortUnique_ext. intros z.
    rewrite !in_app_iff, SortUnique_In, in_app_iff. cbn [In]. tauto.
  - rewrite IH. reflexivity.
Qed.

Lemma apply_additions_CatFeatures (adds : list Addition) (t : TFeatureTensor) :
  CatFeatures (apply_additions t adds) =
  match added_cats adds with
  | [] => CatFeatures t
  | _ :: _ => Unique (Sort (CatFeatures t ++ added_cats adds))
  end.
Proof.
  unfold apply_additions. revert t.
  induction adds as [|[bin | c] adds IH]; intros t; cbn [fold_left].
  - reflexivity.
  - rewrite IH. reflexivity.
  - rewrite IH. change (added_cats (AddCat c :: adds))
      with (c :: added_cats adds).
    change (CatFeatures (apply_addition t (AddCat c)))
      with (Unique (Sort (CatFeatures t ++ [c]))).
    destruct (added_cats adds) as [|s ss] eqn:E; [reflexivity|].
    apply SortUnique_ext. intros z.
    rewrite !in_app_iff, SortUnique_In, in_app_iff. cbn [In]. tauto.
Qed.

Lemma same_members_shape {T : Type} (v w : list T) :
  (forall z, In z v <-> In z w) ->
  match v, w with
  | [], [] | _ :: _, _ :: _ => True
  | _, _ => False
  end.
Proof.
  intros Hvw. destruct v as [|x v], w as [|y w]; try exact I.
  - apply (Hvw y). now left.
  - apply (Hvw x). now left.
Qed.

Lemma apply_additions_same_elements (t : TFeatureTensor)
  (adds adds' : list Addition) :
  same_elements adds adds' ->
  apply_additions t adds = apply_additions t adds'.
Proof.
  intros Hsame. apply tensor_ext.
  - rewrite !apply_additions_Splits.
    assert (Hm : forall z, In z (added_splits adds)
                           <-> In z (added_splits adds')).
    { intros z. rewrite !In_added_splits. apply Hsame. }
    pose proof (same_members_shape _ _ Hm) as Hshape.
    destruct (added_splits adds) as [|x v] eqn:E,
             (added_splits adds') as [|y w] eqn:E';
      try contradiction; [reflexivity|].
    apply SortUnique_ext. intros z. rewrite !in_app_iff, (Hm z). tauto.
  - rewrite !apply_additions_CatFeatures.
    assert (Hm : forall z, In z (added_cats adds)
                           <-> In z (added_cats adds')).
    { intros z. rewrite !In_added_cats. apply Hsame. }
    pose proof (same_members_shape _ _ Hm) as Hshape.
    destruct (added_cats adds) as [|x v] eqn:E,
             (added_cats adds') as [|y w] eqn:E';
      try contradiction; [reflexivity|].
    apply SortUnique_ext. intros z. rewrite !in_app_iff, (Hm z). tauto.
Qed.

Lemma AddTensor_Splits (t u : TFeatureTensor) :
  Splits (AddTensor t u) = Unique (Sort (Splits t ++ Splits u)).
Proof. exact (apply_mutation_Splits t (MAddTensor u)). Qed.

Lemma AddTensor_CatFeatures (t u : TFeatureTensor) :
  CatFeatures (AddTensor t u) = Unique (Sort (CatFeatures t ++ CatFeatures u)).
Proof. exact (apply_mutation_CatFeatures t (MAddTensor u)). Qed.

Lemma AddTensor_comm (t u : TFeatureTensor) : AddTensor t u = AddTensor u t.
Proof.
  apply tensor_ext; rewrite ?AddTensor_Splits, ?AddTensor_CatFeatures;
    apply SortUnique_ext; intros z; rewrite !in_app_iff; tauto.
Qed.

Lemma AddTensor_assoc (t u w : TFeatureTensor) :
  AddTensor (AddTensor t u) w = AddTensor t (AddTensor u w).
Proof.
  apply tensor_ext; rewrite ?AddTensor_Splits, ?AddTensor_CatFeatures;
    apply SortUnique_ext; intros z;
    rewrite !in_app_iff, !SortUnique_In, !in_app_iff; tauto.
Qed.

Lemma AddTensor_empty_r (t : TFeatureTensor) :
  canonical t -> AddTensor t TFeatureTensor_empty = t.
Proof.
  intros Hc. destruct (canonical_fixed t Hc) as [Hs Hcat].
  apply tensor_ext; rewrite ?AddTensor_Splits, ?AddTensor_CatFeatures;
    cbn [Splits CatFeatures TFeatureTensor_empty]; rewrite app_nil_r;
    assumption.
Qed.

Lemma AddBinarySplit_twice (t : TFeatureTensor) (s : TBinarySplit) :
  AddBinarySplit (AddBinarySplit t s) s = AddBinarySplit t s.
Proof.
  apply tensor_ext; [|reflexivity].
  change (Unique (Sort (Unique (Sort (Splits t ++ [s])) ++ [s]))
          = Unique (Sort (Splits t ++ [s]))).
  apply SortUnique_ext. intros z.
  rewrite !in_app_iff, SortUnique_In, in_app_iff. tauto.
Qed.

Lemma AddBinarySplits_as_calls (t : TFeatureTensor)
  (splits : list TBinarySplit) :
  canonical t -> AddBinarySplits t splits = fold_left AddBinarySplit splits t.
Proof.
  intros Hc.
  change (fold_left AddBinarySplit splits t)
    with (fold_left (fun u s => apply_mutation u (MAddBinarySplit s)) splits t).
  change (AddBinarySplits t splits)
    with (apply_mutation t (MAddBinarySplits splits)).
  revert t Hc. induction splits as [|s splits IH]; intros t Hc.
  - cbn [fold_left]. destruct (canonical_fixed t Hc) as [Hs _].
    apply tensor_ext; [|reflexivity].
    rewrite apply_mutation_Splits, app_nil_r. exact Hs.
  - cbn [fold_left]. rewrite <- IH by now apply apply_mutation_canonical.
    apply tensor_ext.
    + rewrite !apply_mutation_Splits. apply SortUnique_ext. intros z.
      rewrite !in_app_iff, SortUnique_In, in_app_iff. cbn [In]. tauto.
    + rewrite !apply_mutation_CatFeatures. reflexivity.
Qed.

Lemma AddCatFeatures_as_calls (t : TFeatureTensor) (featureIds : list ui32) :
  canonical t -> AddCatFeatures t featureIds = fold_left AddCatFeature featureIds t.
Proof.
  intros Hc.
  change (fold_left AddCatFeature featureIds t)
    with (fold_left (fun u c => apply_mutation u (MAddCatFeature c))
                    featureIds t).
  change (AddCatFeatures t featureIds)
    with (apply_mutation t (MAddCatFeatures featureIds)).
  revert t Hc. induction featureIds as [|c cs IH]; intros t Hc.
  - cbn [fold_left]. destruct (canonical_fixed t Hc) as [_ Hcat].
    apply tensor_ext; [reflexivity|].
    rewrite apply_mutation_CatFeatures, app_nil_r. exact Hcat.
  - cbn [fold_left]. rewrite <- IH by now apply apply_mutation_canonical.
    apply tensor_ext.
    + rewrite !apply_mutation_Splits. reflexivity.
    + rewrite !apply_mutation_CatFeatures. apply SortUnique_ext. intros z.
      rewrite !in_app_iff, SortUnique_In, in_app_iff. cbn [In]. tauto.
Qed.

(** * The claims *)

(** C1.  The tensor produced by a sequence of [AddBinarySplit] and
    [AddCatFeature] calls depends only on the set of elements added:
    two sequences with the same elements, in particular two permutations
    of one another, give tensors equal under [operator==], and a list-form
    call on a canonical tensor gives the same tensor as the single calls.
    [AddTensor] is commutative and associative, and merging with the empty
    tensor, on either side, leaves a canonical tensor equal to itself. *)
Theorem order_independence_and_merge :
  (forall t adds adds',
      same_elements adds adds' ->
      TFeatureTensor_eq (apply_additions t adds) (apply_additions t adds')
      = true)
  /\ (forall t adds adds',
        Permutation adds adds' ->
        TFeatureTensor_eq (apply_additions t adds) (apply_additions t adds')
        = true)
  /\ (forall t splits featureIds,
        canonical t ->
        TFeatureTensor_eq (AddBinarySplits t splits)
                          (fold_left AddBinarySplit splits t) = true
        /\ TFeatureTensor_eq (AddCatFeatures t featureIds)
                             (fold_left AddCatFeature featureIds t) = true)
  /\ (forall t u,
        TFeatureTensor_eq (AddTensor t u) (AddTensor u t) = true)
  /\ (forall t u w,
        TFeatureTensor_eq (AddTensor (AddTensor t u) w)
                          (AddTensor t (AddTensor u w)) = true)
  /\ (forall t,
        canonical t ->
        TFeatureTensor_eq (AddTensor t TFeatureTensor_empty) t = true
        /\ TFeatureTensor_eq (AddTensor TFeatureTensor_empty t) t = true).
Proof.
  repeat split.
  - intros t adds adds' Hsame. apply TFeatureTensor_eq_iff.
    now apply apply_additions_same_elements.
  - intros t adds adds' Hperm. apply TFeatureTensor_eq_iff.
    apply apply_additions_same_elements. intros a. split.
    + now apply Permutation_in.
    + now apply Permutation_in, Permutation_sym.
  - apply TFeatureTensor_eq_iff. now apply AddBinarySplits_as_calls.
  - apply TFeatureTensor_eq_iff. now apply AddCatFeatures_as_calls.
  - intros t u. apply TFeatureTensor_eq_iff, AddTensor_comm.
  - intros t u w. apply TFeatureTensor_eq_iff, AddTensor_assoc.
  - apply TFeatureTensor_eq_iff. now apply AddTensor_empty_r.
  - apply TFeatureTensor_eq_iff. rewrite AddTensor_comm.
    now apply AddTensor_empty_r.
Qed.

Lemma sample_tensor_reachable : reachable sample_tensor.
Proof.
  apply reachable_AddCatFeature, reachable_AddBinarySplit,
    reachable_AddBinarySplit, reachable_empty.
Defined.

Lemma sample_tensor_canonical : canonical sample_tensor.
Proof. apply canonicalb_iff. reflexivity. Defined.

Lemma order_independence_and_merge_witness :
  let a := AddSplit (mkTBinarySplit 3 0 TakeBin) in
  let b := AddCat 5 in
  let c := AddSplit (mkTBinarySplit 1 2 TakeGreater) in
  Permutation [a; b; c] [c; a; b]
  /\ TFeatureTensor_eq (apply_additions TFeatureTensor_empty [a; b; c])
                       (apply_additions TFeatureTensor_empty [c; a; b]) = true
  /\ canonical sample_tensor
  /\ TFeatureTensor_eq (AddTensor sample_tensor TFeatureTensor_empty)
                       sample_tensor = true.
Proof.
  intros a b c.
  assert (Hperm : Permutation [a; b; c] [c; a; b]).
  { apply Permutation_sym. apply (Permutation_cons_app [a; b] [] c).
    reflexivity. }
  split; [exact Hperm|]. split.
  - exact (proj1 (proj2 order_independence_and_merge)
             TFeatureTensor_empty [a; b; c] [c; a; b] Hperm).
  - split; [exact sample_tensor_canonical|].
    exact (proj1 (proj2 (proj2 (proj2 (proj2 (proj2
             order_independence_and_merge))))
             sample_tensor sample_tensor_canonical)).
Defined.

(** C2.  Every tensor reachable from the default-constructed one through
    the mutating operations is in canonical form: [Splits] ascending in
    the [TBinarySplit] order without duplicates, [CatFeatures] ascending
    without duplicates; and so is the tensor after any further mutating
    operation. *)
Theorem canonical_form_invariant (t : TFeatureTensor) :
  reachable t ->
  canonical t
  /\ canonicalb t = true
  /\ forall m, canonical (apply_mutation t m).
Proof.
  intros Hr. pose proof (reachable_canonical t Hr) as Hc.
  split; [exact Hc|]. split; [now apply canonicalb_iff|].
  intros m. now apply apply_mutation_canonical.
Qed.

Lemma canonical_form_invariant_witness :
  reachable sample_tensor
  /\ (canonical sample_tensor
      /\ canonicalb sample_tensor = true
      /\ forall m, canonical (apply_mutation sample_tensor m)).
Proof.
  split; [exact sample_tensor_reachable|].
  exact (canonical_form_invariant sample_tensor sample_tensor_reachable).
Defined.

(** C3.  Adding a split a second time changes nothing: the tensor is
    equal under [operator==], with the same [Size] and the same
    [GetHash].  Adding (1, 2, TakeGreater) twice to the empty tensor and
    then categorical feature 7 gives Splits = [(1,2,TakeGreater)],
    CatFeatures = [7], Size 2, IsSimple false, GetComplexity 2. *)
Theorem add_split_idempotent `{HashPrimitives} :
  (forall t s,
      let once := AddBinarySplit t s in
      let twice := AddBinarySplit once s in
      TFeatureTensor_eq twice once = true
      /\ Size twice = Size once
      /\ TFeatureTensor_GetHash twice = TFeatureTensor_GetHash once)
  /\ (let s := mkTBinarySplit 1 2 TakeGreater in
      let t :=
        AddCatFeature
          (AddBinarySplit (AddBinarySplit TFeatureTensor_empty s) s) 7 in
      Splits t = [s]
      /\ CatFeatures t = [7]
      /\ Size t = 2
      /\ IsSimple t = false
      /\ GetComplexity t = 2).
Proof.
  split.
  - intros t s once twice. subst once twice.
    rewrite AddBinarySplit_twice.
    split; [now apply TFeatureTensor_eq_iff | split; reflexivity].
  - repeat split.
Qed.

(** C10.  [AddBinarySplit], in both forms, leaves [CatFeatures] as it
    was and [AddCatFeature], in both forms, leaves [Splits] as it was; no
    mutating operation removes an element; and on a canonical tensor
    [Size] does not decrease, the sizes of the result fitting [ui64]. *)
Theorem add_frame :
  (forall t bin, CatFeatures (AddBinarySplit t bin) = CatFeatures t)
  /\ (forall t splits, CatFeatures (AddBinarySplits t splits) = CatFeatures t)
  /\ (forall t featureId, Splits (AddCatFeature t featureId) = Splits t)
  /\ (forall t featureIds, Splits (AddCatFeatures t featureIds) = Splits t)
  /\ (forall t m s, In s (Splits t) -> In s (Splits (apply_mutation t m)))
  /\ (forall t m c,
        In c (CatFeatures t) -> In c (CatFeatures (apply_mutation t m)))
  /\ (forall t m,
        canonical t -> sizes_fit (apply_mutation t m) ->
        Size t <= Size (apply_mutation t m)).
Proof.
  repeat split; try reflexivity.
  - intros t m s. apply apply_mutation_keeps_split.
  - intros t m c. apply apply_mutation_keeps_cat.
  - intros t m Hc Hfit.
    destruct (apply_mutation_length t m Hc) as [Hs Hcat].
    assert (Hfit' : sizes_fit t).
    { unfold sizes_fit, vsize in *. lia. }
    rewrite !Size_fit by assumption. unfold vsize. lia.
Qed.

Lemma add_frame_witness :
  let m := MAddTensor (AddCatFeature TFeatureTensor_empty 9) in
  In sample_split (Splits sample_tensor)
  /\ In sample_split (Splits (apply_mutation sample_tensor m))
  /\ canonical sample_tensor
  /\ sizes_fit (apply_mutation sample_tensor m)
  /\ Size sample_tensor <= Size (apply_mutation sample_tensor m).
Proof.
  intros m.
  assert (Hin : In sample_split (Splits sample_tensor)) by (now left).
  assert (Hfit : sizes_fit (apply_mutation sample_tensor m))
    by reflexivity.
  split; [exact Hin|]. split.
  - exact (proj1 (proj2 (proj2 (proj2 (proj2 add_frame))))
             sample_tensor m sample_split Hin).
  - split; [exact sample_tensor_canonical|]. split; [exact Hfit|].
    exact (proj2 (proj2 (proj2 (proj2 (proj2 (proj2 add_frame)))))
             sample_tensor m sample_tensor_canonical Hfit).
Defined.

(** ** The orders as lexicographic orders *)

Lemma lexicographical_compare_iff {T : Type} `{StrictTotal T} (v w : list T) :
  lexicographical_compare v w = true
  <-> lex_vector (fun a b => lt_op a b = true) v w.
Proof.
  revert w. induction v as [|x v IH]; intros [|y w]; cbn.
  - split; [discriminate | intros L; inversion L].
  - split; [constructor | reflexivity].
  - split; [discriminate | intros L; inversion L].
  - destruct (lt_op_cases x y)
      as [(E1 & E2 & N) | [(E1 & E2 & E) | (E1 & E2 & N)]]; rewrite E1, ?E2.
    + split; [now constructor | reflexivity].
    + subst y. rewrite IH. split.
      * now constructor.
      * intros L. inversion L as [| ? ? ? ? Hxx | ]; subst; [|assumption].
        rewrite lt_op_irrefl in Hxx. discriminate Hxx.
    + split; [discriminate|].
      intros L. inversion L as [| ? ? ? ? Hxy | ]; subst.
      * rewrite E1 in Hxy. discriminate Hxy.
      * exfalso. now apply N.
Qed.

Lemma lex_vector_iff {T : Type} (R R' : T -> T -> Prop) (v w : list T) :
  (forall a b, R a b <-> R' a b) ->
  lex_vector R v w <-> lex_vector R' v w.
Proof.
  intros HR. split; induction 1; constructor; try assumption; now apply HR.
Qed.

Lemma TBinarySplit_lt_iff (a b : TBinarySplit) :
  TBinarySplit_lt a b = true <-> lex_TBinarySplit a b.
Proof.
  unfold TBinarySplit_lt, lex_TBinarySplit, TBinarySplit_tie. cbn.
  destruct (Z.ltb_spec (FeatureId a) (FeatureId b)),
           (Z.ltb_spec (FeatureId b) (FeatureId a)),
           (Z.ltb_spec (BinIdx a) (BinIdx b)),
           (Z.ltb_spec (BinIdx b) (BinIdx a)),
           (Z.ltb_spec (EBinSplitType_value (SplitType a))
                       (EBinSplitType_value (SplitType b)));
    cbn; split; intros Hx; try reflexivity; try discriminate; lia.
Qed.

Lemma TFeatureTensor_lt_iff (t u : TFeatureTensor) :
  TFeatureTensor_lt t u = true <-> lex_TFeatureTensor t u.
Proof.
  unfold TFeatureTensor_lt, lex_TFeatureTensor.
  assert (HS : forall v w : list TBinarySplit,
             lexicographical_compare v w = true
             <-> lex_vector lex_TBinarySplit v w).
  { intros v w. rewrite lexicographical_compare_iff.
    apply lex_vector_iff. intros a b. apply TBinarySplit_lt_iff. }
  assert (HC : forall v w : list ui32,
             lexicographical_compare v w = true <-> lex_vector Z.lt v w).
  { intros v w. rewrite lexicographical_compare_iff.
    apply lex_vector_iff. intros a b. apply Z.ltb_lt. }
  cbn. rewrite <- HS, <- HC.
  rewrite orb_true_iff, andb_true_iff, negb_true_iff. split.
  - intros [Hs | [Hs Hc]]; [now left|].
    destruct (lexicographical_compare (Splits t) (Splits u)) eqn:Hs';
      [now left | right].
    split; [|exact Hc].
    exact (lt_op_connex (Splits t) (Splits u) Hs' Hs).
  - intros [Hs | [Hs Hc]]; [now left | right].
    split; [|exact Hc]. rewrite Hs.
    exact (lt_op_irrefl (Splits u)).
Qed.

Lemma StrictTotal_strict_weak_order {T : Type} `{StrictTotal T} :
  strict_weak_order (lt_op : T -> T -> bool) eq_op.
Proof.
  unfold strict_weak_order. repeat split.
  - apply lt_op_irrefl.
  - apply lt_op_asym.
  - apply lt_op_trans.
  - apply eq_op_iff in H1. subst b. apply lt_op_irrefl.
  - apply eq_op_iff in H1. subst b. apply lt_op_irrefl.
  - intros [Hab Hba]. apply eq_op_iff. now apply lt_op_connex.
  - rewrite (lt_op_connex a b H1 H2). assumption.
  - rewrite (lt_op_connex a b H1 H2). assumption.
Qed.

(** C5.  [operator<] of [TBinarySplit] is the lexicographic order over
    (FeatureId, BinIdx, SplitType) and [operator<] of [TFeatureTensor] is
    the lexicographic order over (Splits, CatFeatures); each is a strict
    weak ordering (irreflexive, asymmetric, transitive) for which two
    values are equal under [operator==] exactly when neither is below
    the other. *)
Theorem total_order_consistency :
  (forall a b, TBinarySplit_lt a b = true <-> lex_TBinarySplit a b)
  /\ (forall t u, TFeatureTensor_lt t u = true <-> lex_TFeatureTensor t u)
  /\ strict_weak_order TBinarySplit_lt TBinarySplit_eq
  /\ strict_weak_order TFeatureTensor_lt TFeatureTensor_eq.
Proof.
  split; [exact TBinarySplit_lt_iff|].
  split; [exact TFeatureTensor_lt_iff|].
  split.
  - exact (@StrictTotal_strict_weak_order TBinarySplit _ _).
  - exact (@StrictTotal_strict_weak_order TFeatureTensor _ _).
Qed.

(** ** Subset queries *)

Lemma IsSubset_vector_iff {T : Type} `{StrictTotal T} (v w : list T) :
  IsSubset_vector v w = true <-> forall x, In x v -> In x w.
Proof.
  unfold IsSubset_vector. rewrite forallb_forall.
  split; intros Hsub x Hx.
  - destruct (proj1 (existsb_exists _ _) (Hsub x Hx)) as (y & Hy & E).
    apply eq_op_iff in E. now subst y.
  - apply existsb_exists. exists x. split; [now apply Hsub|].
    apply eq_op_refl.
Qed.

Lemma IsSubset_iff (t u : TFeatureTensor) :
  IsSubset t u = true
  <-> (forall s, In s (Splits t) -> In s (Splits u))
      /\ (forall c, In c (CatFeatures t) -> In c (CatFeatures u)).
Proof.
  unfold IsSubset. rewrite andb_true_iff, !IsSubset_vector_iff. reflexivity.
Qed.

(** C6.  [IsSubset(other)] holds exactly when every split and every
    categorical feature of the receiver appears in [other]; it is
    reflexive and transitive, and a tensor is a subset of the result of
    merging any tensor into it. *)
Theorem subset_semantics :
  (forall t u,
      IsSubset t u = true
      <-> (forall s, In s (Splits t) -> In s (Splits u))
          /\ (forall c, In c (CatFeatures t) -> In c (CatFeatures u)))
  /\ (forall t, IsSubset t t = true)
  /\ (forall t u w,
        IsSubset t u = true -> IsSubset u w = true -> IsSubset t w = true)
  /\ (forall t u, IsSubset t (AddTensor t u) = true).
Proof.
  split; [exact IsSubset_iff|]. split; [|split].
  - intros t. apply IsSubset_iff. split; intros x Hx; exact Hx.
  - intros t u w Htu Huw. apply IsSubset_iff.
    apply IsSubset_iff in Htu, Huw.
    destruct Htu as [Hs Hc], Huw as [Hs' Hc'].
    split; intros x Hx; [apply Hs', Hs | apply Hc', Hc]; exact Hx.
  - intros t u. apply IsSubset_iff. split; intros x Hx.
    + exact (apply_mutation_keeps_split t (MAddTensor u) x Hx).
    + exact (apply_mutation_keeps_cat t (MAddTensor u) x Hx).
Qed.

Lemma subset_semantics_witness :
  let t := AddCatFeature TFeatureTensor_empty 7 in
  let w := AddCatFeature sample_tensor 9 in
  IsSubset t sample_tensor = true
  /\ IsSubset sample_tensor w = true
  /\ IsSubset t w = true.
Proof.
  intros t w.
  assert (H1 : IsSubset t sample_tensor = true) by reflexivity.
  assert (H2 : IsSubset sample_tensor w = true) by reflexivity.
  split; [exact H1|]. split; [exact H2|].
  exact (proj1 (proj2 (proj2 subset_semantics)) t sample_tensor w H1 H2).
Defined.

(** C7.  [GetComplexity()] is the number of categorical features plus
    the smaller of the number of splits and 1, the two sizes fitting
    [ui64]: 0 splits and 3 categorical features give 3, 5 splits and no
    categorical feature give 1, 2 splits and 2 categorical features
    give 3. *)
Theorem complexity_formula (t : TFeatureTensor) :
  sizes_fit t ->
  GetComplexity t = vsize (CatFeatures t) + Z.min (vsize (Splits t)) 1
  /\ (length (Splits t) = 0%nat -> length (CatFeatures t) = 3%nat ->
      GetComplexity t = 3)
  /\ (length (Splits t) = 5%nat -> length (CatFeatures t) = 0%nat ->
      GetComplexity t = 1)
  /\ (length (Splits t) = 2%nat -> length (CatFeatures t) = 2%nat ->
      GetComplexity t = 3).
Proof.
  intros Hfit. unfold GetComplexity, vsize.
  repeat split; try (intros -> ->; reflexivity).
  apply ui64_wrap_small. unfold sizes_fit, vsize in Hfit. lia.
Qed.

Lemma complexity_formula_witness :
  let t03 := AddCatFeatures TFeatureTensor_empty [4; 8; 6] in
  let t50 :=
    AddBinarySplits TFeatureTensor_empty
      [mkTBinarySplit 1 0 TakeBin; mkTBinarySplit 1 0 TakeGreater;
       mkTBinarySplit 0 3 TakeBin; mkTBinarySplit 2 1 TakeBin;
       mkTBinarySplit 0 4 TakeGreater] in
  let t22 :=
    AddCatFeatures
      (AddBinarySplits TFeatureTensor_empty
         [mkTBinarySplit 1 0 TakeBin; mkTBinarySplit 0 3 TakeBin])
      [5; 2] in
  (sizes_fit t03 /\ GetComplexity t03 = 3)
  /\ (sizes_fit t50 /\ GetComplexity t50 = 1)
  /\ (sizes_fit t22 /\ GetComplexity t22 = 3
      /\ GetComplexity t22
         = vsize (CatFeatures t22) + Z.min (vsize (Splits t22)) 1).
Proof.
  intros t03 t50 t22.
  assert (H03 : sizes_fit t03) by reflexivity.
  assert (H50 : sizes_fit t50) by reflexivity.
  assert (H22 : sizes_fit t22) by reflexivity.
  split; [|split].
  - split; [exact H03|].
    exact (proj1 (proj2 (complexity_formula t03 H03)) eq_refl eq_refl).
  - split; [exact H50|].
    exact (proj1 (proj2 (proj2 (complexity_formula t50 H50)))
             eq_refl eq_refl).
  - split; [exact H22|]. split.
    + exact (proj2 (proj2 (proj2 (complexity_formula t22 H22)))
               eq_refl eq_refl).
    + exact (proj1 (complexity_formula t22 H22)).
Defined.

(** ** Hashing and CTR identities *)

Lemma TBinarySplit_eq_iff (a b : TBinarySplit) :
  TBinarySplit_eq a b = true <-> a = b.
Proof. exact (eq_op_iff a b). Qed.

(** C4.  Values equal under [operator==] have the same [GetHash], for
    [TBinarySplit], for [TFeatureTensor] and, the configuration's own
    hash agreeing with its own equality, for [TCtr]; each [GetHash] is
    [MultiHash] of the fields in declaration order, hence a function of
    the fields. *)
Theorem hash_equality_consistency
  {TCtrConfig : Type} `{CtrConfigOps TCtrConfig} `{HashPrimitives} :
  (forall a b : TBinarySplit,
      TBinarySplit_eq a b = true ->
      TBinarySplit_GetHash a = TBinarySplit_GetHash b)
  /\ (forall t u : TFeatureTensor,
        TFeatureTensor_eq t u = true ->
        TFeatureTensor_GetHash t = TFeatureTensor_GetHash u)
  /\ (TCtrConfig_hash_consistent TCtrConfig ->
      forall c d : TCtr TCtrConfig,
        TCtr_eq c d = true -> TCtr_GetHash c = TCtr_GetHash d)
  /\ (forall s : TBinarySplit,
        TBinarySplit_GetHash s
        = MultiHash [THash_ui32 (FeatureId s); THash_ui32 (BinIdx s);
                     THash_EBinSplitType (SplitType s)])
  /\ (forall t : TFeatureTensor,
        TFeatureTensor_GetHash t
        = MultiHash [THash_ui64 (TVecHash TBinarySplit_GetHash (Splits t));
                     THash_ui64 (VecCityHash (CatFeatures t))])
  /\ (forall c : TCtr TCtrConfig,
        TCtr_GetHash c
        = MultiHash [TFeatureTensor_GetHash (FeatureTensor c);
                     TCtrConfig_GetHash (Configuration c)]).
Proof.
  repeat split.
  - intros a b E. apply TBinarySplit_eq_iff in E. now subst b.
  - intros t u E. apply TFeatureTensor_eq_iff in E. now subst u.
  - intros Hcfg c d E. unfold TCtr_eq, TCtr_tie in E. cbn in E.
    apply andb_true_iff in E. destruct E as [Et Ec].
    apply TFeatureTensor_eq_iff in Et. apply Hcfg in Ec.
    unfold TCtr_GetHash, THash_TCtrConfig. now rewrite Et, Ec.
Qed.

Lemma sample_CtrConfig_hash_consistent :
  @TCtrConfig_hash_consistent Z sample_CtrConfigOps.
Proof. intros c d E. cbn in *. now apply Z.eqb_eq. Defined.

Lemma hash_equality_consistency_witness :
  let c := mkTCtr sample_tensor 4 in
  let d := mkTCtr (AddBinarySplit sample_tensor sample_split) 4 in
  @TCtrConfig_hash_consistent Z sample_CtrConfigOps
  /\ @TCtr_eq Z sample_CtrConfigOps c d = true
  /\ @TCtr_GetHash Z sample_CtrConfigOps sample_HashPrimitives c
     = @TCtr_GetHash Z sample_CtrConfigOps sample_HashPrimitives d.
Proof.
  intros c d.
  assert (E : @TCtr_eq Z sample_CtrConfigOps c d = true) by reflexivity.
  split; [exact sample_CtrConfig_hash_consistent|]. split; [exact E|].
  exact (proj1 (proj2 (proj2
           (@hash_equality_consistency Z sample_CtrConfigOps
              sample_HashPrimitives)))
           sample_CtrConfig_hash_consistent c d E).
Defined.

Lemma TCtr_lt_iff {TCtrConfig : Type} `{CtrConfigOps TCtrConfig}
  (c d : TCtr TCtrConfig) :
  TCtr_lt c d = true <-> lex_TCtr c d.
Proof.
  unfold TCtr_lt, lex_TCtr, TCtr_tie. cbn.
  rewrite orb_true_iff, andb_true_iff, negb_true_iff, TFeatureTensor_eq_iff.
  split.
  - intros [Ht | [Ht Hc]]; [now left|].
    destruct (TFeatureTensor_lt (FeatureTensor c) (FeatureTensor d)) eqn:Ht';
      [now left | right].
    split; [|exact Hc].
    exact (lt_op_connex (FeatureTensor c) (FeatureTensor d) Ht' Ht).
  - intros [Ht | [Ht Hc]]; [now left | right].
    split; [|exact Hc]. rewrite Ht.
    exact (lt_op_irrefl (FeatureTensor d)).
Qed.

(** C8.  [operator==] of [TCtr] is equality of the tensors and of the
    configurations, [operator<] is the lexicographic order over
    (FeatureTensor, Configuration), and [IsSimple] is the tensor's
    [IsSimple].  Two [TCtr] built from equal tensors and configurations
    that differ compare unequal; where the two-argument hash combination
    keeps apart second arguments with different hashes, they also hash
    differently whenever the configurations hash differently. *)
Theorem ctr_identity
  {TCtrConfig : Type} `{CtrConfigOps TCtrConfig} `{HashPrimitives} :
  (forall c d : TCtr TCtrConfig,
      TCtr_eq c d
      = TFeatureTensor_eq (FeatureTensor c) (FeatureTensor d)
        && eq_op (Configuration c) (Configuration d))
  /\ (forall c d : TCtr TCtrConfig, TCtr_lt c d = true <-> lex_TCtr c d)
  /\ (forall c : TCtr TCtrConfig,
        TCtr_IsSimple c = IsSimple (FeatureTensor c))
  /\ (forall (t u : TFeatureTensor) (cfg cfg' : TCtrConfig),
        TFeatureTensor_eq t u = true -> eq_op cfg cfg' = false ->
        TCtr_eq (mkTCtr t cfg) (mkTCtr u cfg') = false
        /\ TCtr_ne (mkTCtr t cfg) (mkTCtr u cfg') = true)
  /\ (MultiHash_separates_second ->
      forall (t u : TFeatureTensor) (cfg cfg' : TCtrConfig),
        TFeatureTensor_eq t u = true ->
        TCtrConfig_GetHash cfg <> TCtrConfig_GetHash cfg' ->
        TCtr_GetHash (mkTCtr t cfg) <> TCtr_GetHash (mkTCtr u cfg')).
Proof.
  split; [reflexivity|]. split; [exact TCtr_lt_iff|].
  split; [reflexivity|]. split.
  - intros t u cfg cfg' Et Ec. unfold TCtr_ne, TCtr_eq, TCtr_tie. cbn.
    change (TFeatureTensor_eq t u && eq_op cfg cfg' = false
            /\ negb (TFeatureTensor_eq t u && eq_op cfg cfg') = true).
    rewrite Et, Ec. split; reflexivity.
  - intros Hsep t u cfg cfg' Et Hc.
    apply TFeatureTensor_eq_iff in Et. subst u.
    unfold TCtr_GetHash, THash_TCtrConfig. cbn [FeatureTensor Configuration].
    now apply Hsep.
Qed.

Lemma sample_MultiHash_separates_second :
  @MultiHash_separates_second sample_HashPrimitives.
Proof.
  intros h x y Hxy E. apply Hxy.
  change (h + 31 * (x + 31 * 0) = h + 31 * (y + 31 * 0)) in E.
  unfold ui64 in *. lia.
Defined.

Lemma ctr_identity_witness :
  let c := mkTCtr sample_tensor 4 in
  let d := mkTCtr (AddBinarySplit sample_tensor sample_split) 5 in
  TFeatureTensor_eq (FeatureTensor c) (FeatureTensor d) = true
  /\ @TCtr_eq Z sample_CtrConfigOps c d = false
  /\ @MultiHash_separates_second sample_HashPrimitives
  /\ @TCtr_GetHash Z sample_CtrConfigOps sample_HashPrimitives c
     <> @TCtr_GetHash Z sample_CtrConfigOps sample_HashPrimitives d.
Proof.
  intros c d.
  assert (Et : TFeatureTensor_eq (FeatureTensor c) (FeatureTensor d) = true)
    by reflexivity.
  assert (Hne : @TCtrConfig_GetHash Z sample_CtrConfigOps 4
                <> @TCtrConfig_GetHash Z sample_CtrConfigOps 5)
    by (cbn; lia).
  split; [exact Et|]. split.
  - exact (proj1 (proj1 (proj2 (proj2 (proj2
             (@ctr_identity Z sample_CtrConfigOps sample_HashPrimitives))))
             (FeatureTensor c) (FeatureTensor d) 4 5 Et eq_refl)).
  - split; [exact sample_MultiHash_separates_second|].
    exact (proj2 (proj2 (proj2 (proj2
             (@ctr_identity Z sample_CtrConfigOps sample_HashPrimitives))))
             sample_MultiHash_separates_second
             (FeatureTensor c) (FeatureTensor d) 4 5 Et Hne).
Defined.

(** * Further properties of the header *)

(** ** Unique on arbitrary vectors *)

Section UniqueFacts.
Context {T : Type} `{StrictTotal T}.

Lemma unique_from_head (x : T) (v : list T) :
  exists r, unique_from x v = x :: r.
Proof.
  revert x. induction v as [|y v IH]; intros x; cbn [unique_from].
  - now exists [].
  - destruct (eq_op x y); [apply IH | eexists; reflexivity].
Qed.

Lemma unique_from_adjacent (x : T) (v : list T) :
  adjacent_equal (unique_from x v) = false.
Proof.
  revert x. induction v as [|y v IH]; intros x; cbn [unique_from].
  - reflexivity.
  - destruct (eq_op x y) eqn:E; [apply IH|].
    specialize (IH y). destruct (unique_from_head y v) as [r Hr].
    rewrite Hr in *.
    change (eq_op x y || adjacent_equal (y :: r) = false).
    now rewrite E, IH.
Qed.

Lemma unique_from_length (x : T) (v : list T) :
  (length (unique_from x v) <= S (length v))%nat.
Proof.
  revert x. induction v as [|y v IH]; intros x; cbn [unique_from length].
  - apply le_n.
  - destruct (eq_op x y).
    + apply Nat.le_trans with (S (length v)); [apply IH | apply Nat.le_succ_diag_r].
    + cbn [length]. apply le_n_S, IH.
Qed.

Lemma unique_from_fixed (x : T) (v : list T) :
  adjacent_equal (x :: v) = false -> unique_from x v = x :: v.
Proof.
  revert x. induction v as [|y v IH]; intros x Hadj; cbn [unique_from].
  - reflexivity.
  - change (eq_op x y || adjacent_equal (y :: v) = false) in Hadj.
    apply orb_false_iff in Hadj. destruct Hadj as [E Hadj].
    rewrite E. f_equal. now apply IH.
Qed.

Lemma Unique_facts (v : list T) :
  adjacent_equal (Unique v) = false
  /\ (forall z, In z (Unique v) <-> In z v)
  /\ (length (Unique v) <= length v)%nat
  /\ (adjacent_equal v = false -> Unique v = v)
  /\ Unique (Unique v) = Unique v.
Proof.
  assert (Hfix : forall w : list T, adjacent_equal w = false -> Unique w = w).
  { intros [|x w] Hw; [reflexivity | now apply unique_from_fixed]. }
  assert (Hadj : adjacent_equal (Unique v) = false).
  { destruct v as [|x v]; [reflexivity | apply unique_from_adjacent]. }
  split; [exact Hadj|]. split; [intros z; apply Unique_In|].
  split; [|split; [apply Hfix | now apply Hfix]].
  destruct v as [|x v]; [apply le_n | apply unique_from_length].
Qed.

Lemma SortUnique_length_bound (v : list T) :
  (length (Unique (Sort v)) <= length v)%nat.
Proof.
  rewrite <- (Permutation_length (Sort_perm v)).
  apply (Unique_facts (Sort v)).
Qed.

Lemma SortUnique_NoDup_length (v : list T) :
  NoDup v -> length (Unique (Sort v)) = length v.
Proof.
  intros Hn. apply Permutation_length, NoDup_Permutation.
  - apply canonical_seq_SortUnique.
  - exact Hn.
  - intros z. apply SortUnique_In.
Qed.

Lemma SortUnique_fixed_iff (v : list T) :
  Unique (Sort v) = v <-> canonical_seq v.
Proof.
  split.
  - intros <-. apply canonical_seq_SortUnique.
  - intros Hc. now apply SortUnique_fixed, strictly_ascending_canonical_seq.
Qed.

End UniqueFacts.



(** X2.  The two canonicalising passes are idempotent and independent of
    one another, and each leaves a tensor as it is exactly when the
    sequence it works on is already ascending without duplicates. *)
Theorem sort_unique_passes :
  (forall t, SortUniqueSplits (SortUniqueSplits t) = SortUniqueSplits t)
  /\ (forall t,
        SortUniqueCatFeatures (SortUniqueCatFeatures t)
        = SortUniqueCatFeatures t)
  /\ (forall t,
        SortUniqueCatFeatures (SortUniqueSplits t)
        = SortUniqueSplits (SortUniqueCatFeatures t))
  /\ (forall t, SortUniqueSplits t = t <-> canonical_seq (Splits t))
  /\ (forall t,
        SortUniqueCatFeatures t = t <-> canonical_seq (CatFeatures t)).
Proof.
  split; [|split; [|split; [reflexivity|split]]].
  - intros t. apply tensor_ext; [apply SortUnique_idempotent | reflexivity].
  - intros t. apply tensor_ext; [reflexivity | apply SortUnique_idempotent].
  - intros t. rewrite <- SortUnique_fixed_iff. split.
    + intros E. now rewrite <- E at 2.
    + intros E. apply tensor_ext; [exact E | reflexivity].
  - intros t. rewrite <- SortUnique_fixed_iff. split.
    + intros E. now rewrite <- E at 2.
    + intros E. apply tensor_ext; [reflexivity | exact E].
Qed.

(** ** What a mutating operation adds *)

Lemma apply_mutation_In_split (t : TFeatureTensor) (m : Mutation)
  (s : TBinarySplit) :
  In s (Splits (apply_mutation t m))
  <-> In s (Splits t) \/ In s (mutation_splits m).
Proof.
  rewrite apply_mutation_Splits.
  destruct m; cbn [mutation_splits];
    rewrite ?SortUnique_In, ?in_app_iff; cbn [In]; tauto.
Qed.

Lemma apply_mutation_In_cat (t : TFeatureTensor) (m : Mutation) (c : ui32) :
  In c (CatFeatures (apply_mutation t m))
  <-> In c (CatFeatures t) \/ In c (mutation_cats m).
Proof.
  rewrite apply_mutation_CatFeatures.
  destruct m; cbn [mutation_cats];
    rewrite ?SortUnique_In, ?in_app_iff; cbn [In]; tauto.
Qed.

(** X3.  After a mutating operation the tensor holds exactly the
    elements it held before together with the ones passed to the call:
    nothing else appears and nothing is lost, for splits and for
    categorical features alike. *)
Theorem mutation_elements_exact (t : TFeatureTensor) (m : Mutation) :
  (forall s,
      In s (Splits (apply_mutation t m))
      <-> In s (Splits t) \/ In s (mutation_splits m))
  /\ (forall c,
        In c (CatFeatures (apply_mutation t m))
        <-> In c (CatFeatures t) \/ In c (mutation_cats m)).
Proof.
  split; intros z; [apply apply_mutation_In_split | apply apply_mutation_In_cat].
Qed.

Lemma NoDup_snoc {T : Type} (v : list T) (x : T) :
  NoDup v -> ~ In x v -> NoDup (v ++ [x]).
Proof.
  intros Hn Hx. apply (Permutation_NoDup (Permutation_cons_append v x)).
  now constructor.
Qed.

Lemma length_snoc {T : Type} (v : list T) (x : T) :
  length (v ++ [x]) = S (length v).
Proof. rewrite length_app. cbn. apply Nat.add_1_r. Qed.

Lemma canonical_absorbs (t : TFeatureTensor)
  (splits : list TBinarySplit) (cats : list ui32) :
  canonical t ->
  (forall s, In s splits -> In s (Splits t)) ->
  (forall c, In c cats -> In c (CatFeatures t)) ->
  Unique (Sort (Splits t ++ splits)) = Splits t
  /\ Unique (Sort (CatFeatures t ++ cats)) = CatFeatures t.
Proof.
  intros [Hs Hc] Hsub Hcsub.
  split; (apply strictly_ascending_ext;
          [apply SortUnique_strictly_ascending
          | now apply strictly_ascending_canonical_seq
          | intros z; rewrite SortUnique_In, in_app_iff ]).
  - split; [intros [Hz | Hz]; [exact Hz | now apply Hsub] | now left].
  - split; [intros [Hz | Hz]; [exact Hz | now apply Hcsub] | now left].
Qed.

(** X4.  On a canonical tensor, adding a split that is already there
    returns the tensor unchanged, and adding one that is not there makes
    [Size] exactly one larger; likewise for a categorical feature. *)
Theorem add_present_or_absent (t : TFeatureTensor) :
  canonical t ->
  (forall s, In s (Splits t) -> AddBinarySplit t s = t)
  /\ (forall s,
        ~ In s (Splits t) -> sizes_fit (AddBinarySplit t s) ->
        Size (AddBinarySplit t s) = Size t + 1)
  /\ (forall c, In c (CatFeatures t) -> AddCatFeature t c = t)
  /\ (forall c,
        ~ In c (CatFeatures t) -> sizes_fit (AddCatFeature t c) ->
        Size (AddCatFeature t c) = Size t + 1).
Proof.
  intros Hc. pose proof Hc as [[_ Hns] [_ Hnc]].
  split; [|split; [|split]].
  - intros s Hs.
    destruct (canonical_absorbs t [s] [] Hc) as [E _];
      [intros z [<- | []]; exact Hs | intros z [] |].
    apply tensor_ext; [exact E | reflexivity].
  - intros s Hs Hfit.
    assert (Hlen : length (Splits (AddBinarySplit t s))
                   = S (length (Splits t))).
    { change (length (Unique (Sort (Splits t ++ [s])))
              = S (length (Splits t))).
      rewrite SortUnique_NoDup_length by now apply NoDup_snoc.
      apply length_snoc. }
    assert (Hfit' : sizes_fit t).
    { unfold sizes_fit, vsize in *. rewrite Hlen in Hfit.
      change (CatFeatures (AddBinarySplit t s)) with (CatFeatures t) in Hfit.
      lia. }
    rewrite !Size_fit by assumption. unfold vsize. rewrite Hlen.
    change (CatFeatures (AddBinarySplit t s)) with (CatFeatures t). lia.
  - intros c Hin.
    destruct (canonical_absorbs t [] [c] Hc) as [_ E];
      [intros z [] | intros z [<- | []]; exact Hin |].
    apply tensor_ext; [reflexivity | exact E].
  - intros c Hin Hfit.
    assert (Hlen : length (CatFeatures (AddCatFeature t c))
                   = S (length (CatFeatures t))).
    { change (length (Unique (Sort (CatFeatures t ++ [c])))
              = S (length (CatFeatures t))).
      rewrite SortUnique_NoDup_length by now apply NoDup_snoc.
      apply length_snoc. }
    assert (Hfit' : sizes_fit t).
    { unfold sizes_fit, vsize in *. rewrite Hlen in Hfit.
      change (Splits (AddCatFeature t c)) with (Splits t) in Hfit.
      lia. }
    rewrite !Size_fit by assumption. unfold vsize. rewrite Hlen.
    change (Splits (AddCatFeature t c)) with (Splits t). lia.
Qed.

Lemma add_present_or_absent_witness :
  let s := mkTBinarySplit 0 5 TakeBin in
  canonical sample_tensor
  /\ AddBinarySplit sample_tensor sample_split = sample_tensor
  /\ Size (AddBinarySplit sample_tensor s) = Size sample_tensor + 1
  /\ AddCatFeature sample_tensor 7 = sample_tensor
  /\ Size (AddCatFeature sample_tensor 2) = Size sample_tensor + 1.
Proof.
  intros s.
  pose proof (add_present_or_absent sample_tensor sample_tensor_canonical)
    as (Hp & Ha & Hpc & Hac).
  split; [exact sample_tensor_canonical|]. split; [|split; [|split]].
  - apply Hp. now left.
  - apply Ha; [|reflexivity]. intros [E | []]. discriminate E.
  - apply Hpc. now left.
  - apply Hac; [|reflexivity]. intros [E | []]. discriminate E.
Defined.

(** X5.  Merging [u] into a canonical tensor [t] returns [t] unchanged
    exactly when every split and every categorical feature of [u] is
    already in [t]. *)
Theorem merge_absorption (t u : TFeatureTensor) :
  canonical t ->
  (TFeatureTensor_eq (AddTensor t u) t = true
   <-> (forall s, In s (Splits u) -> In s (Splits t))
       /\ (forall c, In c (CatFeatures u) -> In c (CatFeatures t))).
Proof.
  intros Hc. rewrite TFeatureTensor_eq_iff. split.
  - intros E. split; intros z Hz; rewrite <- E.
    + apply (apply_mutation_In_split t (MAddTensor u)). now right.
    + apply (apply_mutation_In_cat t (MAddTensor u)). now right.
  - intros [Hs Hcat].
    destruct (canonical_absorbs t (Splits u) (CatFeatures u) Hc Hs Hcat)
      as [Es Ec].
    apply tensor_ext; rewrite ?AddTensor_Splits, ?AddTensor_CatFeatures;
      assumption.
Qed.

Lemma merge_absorption_witness :
  let u := AddCatFeature TFeatureTensor_empty 7 in
  canonical sample_tensor
  /\ TFeatureTensor_eq (AddTensor sample_tensor u) sample_tensor = true
  /\ (forall c, In c (CatFeatures u) -> In c (CatFeatures sample_tensor)).
Proof.
  intros u.
  assert (E : TFeatureTensor_eq (AddTensor sample_tensor u) sample_tensor
              = true) by reflexivity.
  split; [exact sample_tensor_canonical|]. split; [exact E|].
  exact (proj2 (proj1 (merge_absorption sample_tensor u
                         sample_tensor_canonical) E)).
Defined.

(** X6.  The list forms compose: two list-form calls in a row are one
    call with the concatenated list, a single-element call is the list
    form on a singleton, calls on splits commute with calls on
    categorical features, and [AddTensor] is the list-form addition of
    the argument's splits followed by that of its categorical features. *)
Theorem list_forms_compose :
  (forall t l1 l2,
      AddBinarySplits (AddBinarySplits t l1) l2 = AddBinarySplits t (l1 ++ l2))
  /\ (forall t l1 l2,
        AddCatFeatures (AddCatFeatures t l1) l2 = AddCatFeatures t (l1 ++ l2))
  /\ (forall t bin, AddBinarySplit t bin = AddBinarySplits t [bin])
  /\ (forall t featureId,
        AddCatFeature t featureId = AddCatFeatures t [featureId])
  /\ (forall t splits featureIds,
        AddCatFeatures (AddBinarySplits t splits) featureIds
        = AddBinarySplits (AddCatFeatures t featureIds) splits)
  /\ (forall t u,
        AddTensor t u
        = AddCatFeatures (AddBinarySplits t (Splits u)) (CatFeatures u)).
Proof.
  split; [|split; [|split; [|split; [|split]]]].
  - intros t l1 l2.
    apply tensor_ext;
      [|reflexivity].
    change (Splits (apply_mutation (apply_mutation t (MAddBinarySplits l1))
                                   (MAddBinarySplits l2))
            = Splits (apply_mutation t (MAddBinarySplits (l1 ++ l2)))).
    rewrite !apply_mutation_Splits.
    apply SortUnique_ext. intros z.
    rewrite !in_app_iff, SortUnique_In, in_app_iff. tauto.
  - intros t l1 l2.
    apply tensor_ext;
      [reflexivity|].
    change (CatFeatures (apply_mutation (apply_mutation t (MAddCatFeatures l1))
                                        (MAddCatFeatures l2))
            = CatFeatures (apply_mutation t (MAddCatFeatures (l1 ++ l2)))).
    rewrite !apply_mutation_CatFeatures.
    apply SortUnique_ext. intros z.
    rewrite !in_app_iff, SortUnique_In, in_app_iff. tauto.
  - reflexivity.
  - reflexivity.
  - reflexivity.
  - reflexivity.
Qed.

(** X7.  A mutating operation enlarges [Size] by at most the number of
    elements passed to it, all sizes fitting [ui64]. *)
Theorem size_growth_bound (t : TFeatureTensor) (m : Mutation) :
  vsize (Splits t) + vsize (CatFeatures t)
  + vsize (mutation_splits m) + vsize (mutation_cats m) < 2 ^ 64 ->
  Size (apply_mutation t m)
  <= Size t + vsize (mutation_splits m) + vsize (mutation_cats m).
Proof.
  intros Hfit.
  assert (Hs : (length (Splits (apply_mutation t m))
                <= length (Splits t) + length (mutation_splits m))%nat).
  { rewrite apply_mutation_Splits.
    destruct m; cbn [mutation_splits]; rewrite <- ?length_app;
      try apply SortUnique_length_bound.
    - rewrite length_app. cbn. rewrite Nat.add_0_r. apply le_n.
    - rewrite length_app. cbn. rewrite Nat.add_0_r. apply le_n. }
  assert (Hc : (length (CatFeatures (apply_mutation t m))
                <= length (CatFeatures t) + length (mutation_cats m))%nat).
  { rewrite apply_mutation_CatFeatures.
    destruct m; cbn [mutation_cats]; rewrite <- ?length_app;
      try apply SortUnique_length_bound.
    - rewrite length_app. cbn. rewrite Nat.add_0_r. apply le_n.
    - rewrite length_app. cbn. rewrite Nat.add_0_r. apply le_n. }
  unfold vsize in Hfit.
  rewrite !Size_fit by (unfold sizes_fit, vsize; lia).
  unfold vsize. lia.
Qed.

Lemma size_growth_bound_witness :
  let m := MAddBinarySplits [sample_split; mkTBinarySplit 4 0 TakeBin;
                             sample_split] in
  vsize (Splits sample_tensor) + vsize (CatFeatures sample_tensor)
  + vsize (mutation_splits m) + vsize (mutation_cats m) < 2 ^ 64
  /\ Size (apply_mutation sample_tensor m)
     <= Size sample_tensor + vsize (mutation_splits m)
        + vsize (mutation_cats m).
Proof.
  intros m.
  assert (Hfit : vsize (Splits sample_tensor)
                 + vsize (CatFeatures sample_tensor)
                 + vsize (mutation_splits m) + vsize (mutation_cats m)
                 < 2 ^ 64) by reflexivity.
  split; [exact Hfit|].
  exact (size_growth_bound sample_tensor m Hfit).
Defined.

(** ** The size queries *)

Lemma IsEmpty_iff (t : TFeatureTensor) :
  IsEmpty t = true <-> t = TFeatureTensor_empty.
Proof.
  unfold IsEmpty, vsize. destruct t as [[|s ss] [|c cs]]; cbn;
    split; intros E; try reflexivity; try discriminate E.
Qed.

(** X8.  [IsSimple] is [Size() == 1]; [IsEmpty] holds of the
    default-constructed tensor value only, never together with
    [IsSimple], and, the sizes fitting [ui64], exactly when [Size] is 0. *)
Theorem size_queries_agree :
  (forall t, IsSimple t = (Size t =? 1))
  /\ (forall t, IsEmpty t = true <-> t = TFeatureTensor_empty)
  /\ (forall t, IsEmpty t = true -> IsSimple t = false)
  /\ (forall t, sizes_fit t -> (IsEmpty t = true <-> Size t = 0)).
Proof.
  split; [|split; [exact IsEmpty_iff|split]].
  - intros t. unfold IsSimple, Size. now rewrite Z.add_comm.
  - intros t E. apply IsEmpty_iff in E. now subst t.
  - intros t Hfit. rewrite (Size_fit t Hfit). unfold IsEmpty.
    rewrite andb_true_iff, !Z.eqb_eq.
    pose proof (vsize_nonneg (Splits t)).
    pose proof (vsize_nonneg (CatFeatures t)). lia.
Qed.

Lemma size_queries_agree_witness :
  sizes_fit TFeatureTensor_empty
  /\ IsEmpty TFeatureTensor_empty = true
  /\ Size TFeatureTensor_empty = 0
  /\ IsSimple TFeatureTensor_empty = false.
Proof.
  assert (Hfit : sizes_fit TFeatureTensor_empty) by reflexivity.
  assert (E : IsEmpty TFeatureTensor_empty = true) by reflexivity.
  split; [exact Hfit|]. split; [exact E|]. split.
  - exact (proj1 (proj2 (proj2 (proj2 size_queries_agree))
                    TFeatureTensor_empty Hfit) E).
  - exact (proj1 (proj2 (proj2 size_queries_agree))
             TFeatureTensor_empty E).
Defined.

(** X9.  The sizes fitting [ui64]: a tensor is simple exactly when it
    is one split and no categorical feature, or no split and one
    categorical feature; a simple tensor has complexity 1; the
    complexity never exceeds [Size] and is 0 exactly for the empty
    tensor. *)
Theorem simple_and_complexity (t : TFeatureTensor) :
  sizes_fit t ->
  (IsSimple t = true
   <-> (exists s, Splits t = [s] /\ CatFeatures t = [])
       \/ (exists c, Splits t = [] /\ CatFeatures t = [c]))
  /\ (IsSimple t = true -> GetComplexity t = 1)
  /\ GetComplexity t <= Size t
  /\ (GetComplexity t = 0 <-> IsEmpty t = true).
Proof.
  intros Hfit.
  pose proof (vsize_nonneg (Splits t)) as Hs.
  pose proof (vsize_nonneg (CatFeatures t)) as Hc.
  assert (Hcx : GetComplexity t
                = vsize (CatFeatures t) + Z.min (vsize (Splits t)) 1).
  { unfold GetComplexity. apply ui64_wrap_small.
    unfold sizes_fit in Hfit. lia. }
  assert (Hsimple : IsSimple t = true
                    <-> vsize (Splits t) + vsize (CatFeatures t) = 1).
  { unfold IsSimple. rewrite ui64_wrap_small, Z.eqb_eq; [reflexivity|].
    unfold sizes_fit in Hfit. lia. }
  split; [|split; [|split]].
  - rewrite Hsimple. unfold vsize. split.
    + intros E.
      destruct (Splits t) as [|s [|s' ss]] eqn:Es,
               (CatFeatures t) as [|c [|c' cs]] eqn:Ec;
        cbn [length] in E; try lia.
      * right. now exists c.
      * left. now exists s.
    + intros [(s & -> & ->) | (c & -> & ->)]; reflexivity.
  - rewrite Hsimple, Hcx. lia.
  - rewrite Hcx, (Size_fit t Hfit). lia.
  - rewrite Hcx. unfold IsEmpty. rewrite andb_true_iff, !Z.eqb_eq. lia.
Qed.

Lemma simple_and_complexity_witness :
  let t := AddBinarySplit TFeatureTensor_empty sample_split in
  sizes_fit t /\ IsSimple t = true /\ GetComplexity t = 1
  /\ GetComplexity t <= Size t.
Proof.
  intros t.
  assert (Hfit : sizes_fit t) by reflexivity.
  assert (E : IsSimple t = true) by reflexivity.
  split; [exact Hfit|]. split; [exact E|]. split.
  - exact (proj1 (proj2 (simple_and_complexity t Hfit)) E).
  - exact (proj1 (proj2 (proj2 (simple_and_complexity t Hfit)))).
Defined.

(** ** Order and inequality *)

Lemma ne_iff_lt {T : Type} `{StrictTotal T} (a b : T) :
  negb (eq_op a b) = true <-> lt_op a b = true \/ lt_op b a = true.
Proof.
  rewrite negb_true_iff, eq_op_false_iff.
  destruct (lt_op_cases a b)
    as [(E1 & E2 & N) | [(E1 & E2 & E) | (E1 & E2 & N)]]; rewrite E1, E2.
  - split; [now left | intros _; exact N].
  - split; [intros N; now destruct N | intros [F | F]; discriminate F].
  - split; [now right | intros _; exact N].
Qed.

Lemma exactly_one_of_three {T : Type} `{StrictTotal T} (a b : T) :
  (lt_op a b = true /\ eq_op a b = false /\ lt_op b a = false)
  \/ (lt_op a b = false /\ eq_op a b = true /\ lt_op b a = false)
  \/ (lt_op a b = false /\ eq_op a b = false /\ lt_op b a = true).
Proof.
  destruct (lt_op_cases a b)
    as [(E1 & E2 & N) | [(E1 & E2 & E) | (E1 & E2 & N)]].
  - left. repeat split; try assumption. now apply eq_op_false_iff.
  - right; left. repeat split; try assumption. now apply eq_op_iff.
  - right; right. repeat split; try assumption. now apply eq_op_false_iff.
Qed.

(** X10.  For splits and for tensors, [operator!=] holds exactly when
    one of the two values is below the other, and of [a < b], [a == b],
    [b < a] exactly one holds: the order is total. *)
Theorem inequality_and_trichotomy :
  (forall a b : TBinarySplit,
      TBinarySplit_ne a b = true
      <-> TBinarySplit_lt a b = true \/ TBinarySplit_lt b a = true)
  /\ (forall t u : TFeatureTensor,
        TFeatureTensor_ne t u = true
        <-> TFeatureTensor_lt t u = true \/ TFeatureTensor_lt u t = true)
  /\ (forall a b : TBinarySplit,
        (TBinarySplit_lt a b = true /\ TBinarySplit_eq a b = false
         /\ TBinarySplit_lt b a = false)
        \/ (TBinarySplit_lt a b = false /\ TBinarySplit_eq a b = true
            /\ TBinarySplit_lt b a = false)
        \/ (TBinarySplit_lt a b = false /\ TBinarySplit_eq a b = false
            /\ TBinarySplit_lt b a = true))
  /\ (forall t u : TFeatureTensor,
        (TFeatureTensor_lt t u = true /\ TFeatureTensor_eq t u = false
         /\ TFeatureTensor_lt u t = false)
        \/ (TFeatureTensor_lt t u = false /\ TFeatureTensor_eq t u = true
            /\ TFeatureTensor_lt u t = false)
        \/ (TFeatureTensor_lt t u = false /\ TFeatureTensor_eq t u = false
            /\ TFeatureTensor_lt u t = true)).
Proof.
  split; [|split; [|split]].
  - intros a b. exact (ne_iff_lt a b).
  - intros t u. exact (ne_iff_lt t u).
  - intros a b. exact (exactly_one_of_three a b).
  - intros t u. exact (exactly_one_of_three t u).
Qed.

(** X11.  The default-constructed tensor is the least tensor: no tensor
    is below it, and it is below every tensor that is not empty. *)
Theorem empty_tensor_least :
  (forall t, TFeatureTensor_lt t TFeatureTensor_empty = false)
  /\ (forall t, TFeatureTensor_lt TFeatureTensor_empty t = negb (IsEmpty t)).
Proof.
  split; intros [[|s ss] [|c cs]]; reflexivity.
Qed.

Lemma StrictTotal_TCtr_tie {TCtrConfig : Type} `{CtrConfigOps TCtrConfig}
  (HS : StrictTotal TCtrConfig) :
  strict_weak_order (TCtr_lt (TCtrConfig := TCtrConfig)) TCtr_eq
  /\ (forall c d : TCtr TCtrConfig, TCtr_eq c d = true <-> c = d).
Proof.
  pose proof (@StrictTotal_strict_weak_order
                (TFeatureTensor * TCtrConfig) _ _) as Hswo.
  assert (Hinj : forall c d : TCtr TCtrConfig,
             TCtr_tie c = TCtr_tie d -> c = d).
  { intros [t1 c1] [t2 c2]. unfold TCtr_tie. cbn. intros E.
    inversion E. reflexivity. }
  destruct Hswo as (Hirr & Hasym & Htrans & Heq & Hinc).
  unfold TCtr_lt, TCtr_eq. split.
  - unfold strict_weak_order. split; [|split; [|split; [|split]]].
    + intros a. apply Hirr.
    + intros a b. apply Hasym.
    + intros a b c. apply Htrans.
    + intros a b. apply Heq.
    + intros a b c. apply Hinc.
  - intros c d. rewrite eq_op_iff. split.
    + apply Hinj.
    + intros ->. reflexivity.
Qed.

(** X12.  When the configuration's [operator<] is a strict total order
    whose equality is its [operator==], [operator<] of [TCtr] is a strict
    weak ordering consistent with [operator==] of [TCtr], and two [TCtr]
    are equal under [operator==] exactly when tensor and configuration
    are the same. *)
Theorem ctr_order_consistency
  {TCtrConfig : Type} `{CtrConfigOps TCtrConfig} :
  StrictTotal TCtrConfig ->
  strict_weak_order (TCtr_lt (TCtrConfig := TCtrConfig)) TCtr_eq
  /\ (forall c d : TCtr TCtrConfig, TCtr_eq c d = true <-> c = d)
  /\ (forall c d : TCtr TCtrConfig,
        TCtr_ne c d = true <-> TCtr_lt c d = true \/ TCtr_lt d c = true).
Proof.
  intros HS. destruct (StrictTotal_TCtr_tie HS) as [Hswo Heq].
  split; [exact Hswo|]. split; [exact Heq|].
  intros c d. unfold TCtr_ne, TCtr_eq, TCtr_lt.
  exact (ne_iff_lt (TCtr_tie c) (TCtr_tie d)).
Qed.

Lemma ctr_order_consistency_witness :
  @StrictTotal Z Comparable_ui32
  /\ strict_weak_order (@TCtr_lt Z sample_CtrConfigOps)
                       (@TCtr_eq Z sample_CtrConfigOps).
Proof.
  split; [exact StrictTotal_ui32|].
  exact (proj1 (@ctr_order_consistency Z sample_CtrConfigOps
                  StrictTotal_ui32)).
Defined.

(** ** Canonical tensors *)

(** X13.  Two canonical tensors are equal under [operator==] exactly
    when they have the same splits and the same categorical features:
    equality of canonical tensors is equality of element sets. *)
Theorem canonical_equality_is_set_equality (t u : TFeatureTensor) :
  canonical t -> canonical u ->
  (TFeatureTensor_eq t u = true
   <-> (forall s, In s (Splits t) <-> In s (Splits u))
       /\ (forall c, In c (CatFeatures t) <-> In c (CatFeatures u))).
Proof.
  intros [Hts Htc] [Hus Huc]. rewrite TFeatureTensor_eq_iff. split.
  - intros ->. split; intros z; reflexivity.
  - intros [Hs Hc].
    apply tensor_ext; apply strictly_ascending_ext;
      try (now apply strictly_ascending_canonical_seq); assumption.
Qed.

Lemma canonical_equality_is_set_equality_witness :
  let t := AddCatFeature (AddBinarySplit TFeatureTensor_empty sample_split) 7 in
  canonical sample_tensor /\ canonical t
  /\ TFeatureTensor_eq sample_tensor t = true
  /\ (forall s, In s (Splits sample_tensor) <-> In s (Splits t)).
Proof.
  intros t.
  assert (Ht : canonical t) by (apply canonicalb_iff; reflexivity).
  assert (E : TFeatureTensor_eq sample_tensor t = true) by reflexivity.
  split; [exact sample_tensor_canonical|]. split; [exact Ht|].
  split; [exact E|].
  exact (proj1 (proj1 (canonical_equality_is_set_equality sample_tensor t
                         sample_tensor_canonical Ht) E)).
Defined.

Lemma canonical_rebuild (t : TFeatureTensor) :
  canonical t ->
  AddCatFeatures (AddBinarySplits TFeatureTensor_empty (Splits t))
                 (CatFeatures t) = t.
Proof.
  intros Hc. destruct (canonical_fixed t Hc) as [Hs Hcat].
  apply tensor_ext.
  - change (Unique (Sort (push_back_all [] (Splits t))) = Splits t).
    now rewrite push_back_all_app.
  - change (Unique (Sort (push_back_all [] (CatFeatures t))) = CatFeatures t).
    now rewrite push_back_all_app.
Qed.

(** X14.  The mutating interface builds exactly the canonical tensors:
    a tensor is reachable from the default-constructed one if and only
    if it is canonical, and a canonical tensor is rebuilt from the empty
    one by the two list-form additions of its own elements. *)
Theorem reachable_iff_canonical :
  (forall t, reachable t <-> canonical t)
  /\ (forall t,
        canonical t ->
        AddCatFeatures (AddBinarySplits TFeatureTensor_empty (Splits t))
                       (CatFeatures t) = t).
Proof.
  split; [|exact canonical_rebuild].
  intros t. split; [apply reachable_canonical|].
  intros Hc. rewrite <- (canonical_rebuild t Hc).
  apply reachable_AddCatFeatures, reachable_AddBinarySplits, reachable_empty.
Qed.

Lemma reachable_iff_canonical_witness :
  canonical sample_tensor
  /\ AddCatFeatures
       (AddBinarySplits TFeatureTensor_empty (Splits sample_tensor))
       (CatFeatures sample_tensor) = sample_tensor.
Proof.
  split; [exact sample_tensor_canonical|].
  exact (proj2 reachable_iff_canonical sample_tensor sample_tensor_canonical).
Defined.

(** X15.  The hash of a tensor does not depend on the order in which its
    elements were added, nor on the order of the two operands of a
    merge. *)
Theorem hash_order_independent `{HashPrimitives} :
  (forall t adds adds',
      Permutation adds adds' ->
      TFeatureTensor_GetHash (apply_additions t adds)
      = TFeatureTensor_GetHash (apply_additions t adds'))
  /\ (forall t u,
        TFeatureTensor_GetHash (AddTensor t u)
        = TFeatureTensor_GetHash (AddTensor u t)).
Proof.
  split.
  - intros t adds adds' Hperm. f_equal.
    apply apply_additions_same_elements. intros a. split.
    + now apply Permutation_in.
    + now apply Permutation_in, Permutation_sym.
  - intros t u. now rewrite AddTensor_comm.
Qed.

Lemma hash_order_independent_witness :
  let a := AddSplit (mkTBinarySplit 3 0 TakeBin) in
  let b := AddCat 5 in
  Permutation [a; b] [b; a]
  /\ @TFeatureTensor_GetHash sample_HashPrimitives
       (apply_additions sample_tensor [a; b])
     = @TFeatureTensor_GetHash sample_HashPrimitives
         (apply_additions sample_tensor [b; a]).
Proof.
  intros a b.
  assert (Hperm : Permutation [a; b] [b; a]) by apply perm_swap.
  split; [exact Hperm|].
  exact (proj1 (@hash_order_independent sample_HashPrimitives)
           sample_tensor [a; b] [b; a] Hperm).
Defined.

(** X16.  On a canonical tensor no mutating operation lowers the
    complexity, the sizes of the result fitting [ui64]. *)
Theorem complexity_monotone (t : TFeatureTensor) (m : Mutation) :
  canonical t -> sizes_fit (apply_mutation t m) ->
  GetComplexity t <= GetComplexity (apply_mutation t m).
Proof.
  intros Hc Hfit.
  destruct (apply_mutation_length t m Hc) as [Hs Hcat].
  unfold sizes_fit, vsize in Hfit. unfold GetComplexity.
  rewrite !ui64_wrap_small; unfold vsize; lia.
Qed.

Lemma complexity_monotone_witness :
  let m := MAddCatFeatures [7; 3; 3] in
  canonical sample_tensor
  /\ sizes_fit (apply_mutation sample_tensor m)
  /\ GetComplexity sample_tensor
     <= GetComplexity (apply_mutation sample_tensor m).
Proof.
  intros m.
  assert (Hfit : sizes_fit (apply_mutation sample_tensor m)) by reflexivity.
  split; [exact sample_tensor_canonical|]. split; [exact Hfit|].
  exact (complexity_monotone sample_tensor m sample_tensor_canonical Hfit).
Defined.

Lemma StronglySorted_map {A B : Type} (R : A -> A -> Prop)
  (R' : B -> B -> Prop) (f : A -> B) (v : list A) :
  (forall a b, R a b -> R' (f a) (f b)) ->
  StronglySorted R v -> StronglySorted R' (map f v).
Proof.
  intros HR. induction 1 as [|x v Hv IH Hx]; cbn; constructor.
  - exact IH.
  - rewrite Forall_forall in *. intros y Hy.
    apply in_map_iff in Hy. destruct Hy as (z & <- & Hz).
    now apply HR, Hx.
Qed.

(** X17.  Layout of a canonical tensor: the splits are listed in
    strictly increasing lexicographic order, hence by non-decreasing
    feature id, and the categorical feature ids are strictly
    increasing. *)
Theorem canonical_layout (t : TFeatureTensor) :
  canonical t ->
  StronglySorted lex_TBinarySplit (Splits t)
  /\ StronglySorted Z.le (map FeatureId (Splits t))
  /\ StronglySorted Z.lt (CatFeatures t).
Proof.
  intros [Hs Hc].
  apply strictly_ascending_canonical_seq in Hs, Hc.
  unfold strictly_ascending in Hs, Hc.
  assert (Hlex : StronglySorted lex_TBinarySplit (Splits t)).
  { rewrite <- (map_id (Splits t)).
    apply (StronglySorted_map _ _ (fun s => s) _) with (2 := Hs).
    intros a b Hab. now apply TBinarySplit_lt_iff. }
  split; [exact Hlex|]. split.
  - apply (StronglySorted_map _ _ FeatureId _) with (2 := Hlex).
    intros a b [Hlt | [E _]]; lia.
  - rewrite <- (map_id (CatFeatures t)).
    apply (StronglySorted_map _ _ (fun c => c) _) with (2 := Hc).
    intros a b Hab. now apply Z.ltb_lt.
Qed.

Lemma canonical_layout_witness :
  let t :=
    AddBinarySplits sample_tensor
      [mkTBinarySplit 1 2 TakeBin; mkTBinarySplit 0 9 TakeGreater] in
  canonical t
  /\ StronglySorted Z.le (map FeatureId (Splits t))
  /\ Splits t = [mkTBinarySplit 0 9 TakeGreater; mkTBinarySplit 1 2 TakeBin;
                 mkTBinarySplit 1 2 TakeGreater].
Proof.
  intros t.
  assert (Ht : canonical t) by (apply canonicalb_iff; reflexivity).
  split; [exact Ht|]. split; [|reflexivity].
  exact (proj1 (proj2 (canonical_layout t Ht))).
Defined.

(** ** Mutating operations as set insertions *)

Ltac same_canonical_form :=
  try reflexivity;
  apply SortUnique_ext; intros ?z;
  repeat (rewrite ?in_app_iff, ?SortUnique_In);
  cbn [In]; tauto.

(** X18.  Every mutating operation is idempotent: repeating the call
    with the same argument returns the tensor the first call returned. *)
Theorem mutation_idempotent (t : TFeatureTensor) (m : Mutation) :
  TFeatureTensor_eq (apply_mutation (apply_mutation t m) m)
                    (apply_mutation t m) = true.
Proof.
  apply TFeatureTensor_eq_iff, tensor_ext.
  - rewrite !apply_mutation_Splits. destruct m; same_canonical_form.
  - rewrite !apply_mutation_CatFeatures. destruct m; same_canonical_form.
Qed.

(** X19.  Any two mutating operations commute: applied in either order
    to the same tensor they return equal tensors. *)
Theorem mutations_commute (t : TFeatureTensor) (m1 m2 : Mutation) :
  TFeatureTensor_eq (apply_mutation (apply_mutation t m1) m2)
                    (apply_mutation (apply_mutation t m2) m1) = true.
Proof.
  apply TFeatureTensor_eq_iff, tensor_ext.
  - rewrite !apply_mutation_Splits. destruct m1, m2; same_canonical_form.
  - rewrite !apply_mutation_CatFeatures.
    destruct m1, m2; same_canonical_form.
Qed.
